(** * Option pricing engines: binomial lattice, Monte Carlo, payoff expressions

    A shallow embedding of [binomial_option.py] and [monte_carlo_option.py].

    - Python [float] values are idealised as real numbers ([R]); [math.exp]
      and [math.sqrt] are the real exponential and square root.  Rounding,
      overflow and NaN are therefore outside the model.
    - Python [int] values are [Z]; loop counters produced by [range] are [nat].
    - A raised exception is a value of [exn]; a computation that may raise
      returns a [Result]. *)

From Stdlib Require Import Reals Lra Lia ZArith Ascii String.
From stdpp Require Import base decidable option list strings gmap pretty.

Open Scope R_scope.

(** ** Exceptions and results *)

Inductive exn : Type :=
| ValueError (msg : string)
| ZeroDivisionError
| IndexError
| NameError (name : string)
| TypeError
| SyntaxError
| OverflowError
| Unsupported.

Inductive Result (A : Type) : Type :=
| OK (a : A)
| Raise (e : exn).
Arguments OK {A} a.
Arguments Raise {A} e.

#[global] Instance Result_ret : MRet Result := fun A a => OK a.
#[global] Instance Result_bind : MBind Result := fun A B f m =>
  match m with
  | OK a => f a
  | Raise e => Raise e
  end.
#[global] Instance Result_fmap : FMap Result := fun A B f m =>
  match m with
  | OK a => OK (f a)
  | Raise e => Raise e
  end.

(** Monadic left fold: a [for] loop whose body may raise. *)
Fixpoint foldM {A B : Type} (body : A -> B -> Result A) (acc : A) (xs : list B)
  : Result A :=
  match xs with
  | [] => OK acc
  | x :: xs' => acc' ← body acc x; foldM body acc' xs'
  end.

(** The error kinds of the specification, as the code raises them: both
    [InvalidParameter] and [InvalidModel] are Python [ValueError]s, told
    apart by their message; a payoff expression fails to compile with
    [SyntaxError] and fails to evaluate with [NameError] or [TypeError]. *)
Inductive error_kind : Type :=
| InvalidParameter
| InvalidModel
| PayoffCompileError
| PayoffEvalError
| OtherError.

Definition msg_spot : string := "spot price must be positive".
Definition msg_strike : string := "strike price must be positive".
Definition msg_maturity : string := "maturity must be positive".
Definition msg_steps : string := "steps must be at least 1".
Definition msg_paths : string := "paths must be at least 1".
Definition msg_volatility : string := "volatility must be non-negative".
Definition msg_dt : string := "time step size became zero".
Definition msg_prob : string :=
  "risk-neutral probability is outside [0, 1]; adjust inputs".

Definition kind_of (e : exn) : error_kind :=
  match e with
  | ValueError m =>
      if bool_decide (m = msg_prob) then InvalidModel
      else if bool_decide (m ∈ [msg_spot; msg_strike; msg_maturity; msg_steps;
                                 msg_paths; msg_volatility; msg_dt])
           then InvalidParameter
           else OtherError
  | SyntaxError => PayoffCompileError
  | NameError _ | TypeError => PayoffEvalError
  | _ => OtherError
  end.

(** ** Python primitives on numbers and lists *)

#[global] Instance Rle_decision (x y : R) : Decision (x <= y) := Rle_dec x y.
#[global] Instance Rlt_decision (x y : R) : Decision (x < y) := Rlt_dec x y.
#[global] Instance Req_decision : EqDecision R := Req_dec_T.

(** [x / y] raises [ZeroDivisionError] on a zero divisor. *)
Definition py_div (x y : R) : Result R :=
  if decide (y = 0) then Raise ZeroDivisionError else OK (x / y).

(** [math.sqrt] raises [ValueError] below zero (the message is CPython's up
    to 3.13). *)
Definition py_sqrt (x : R) : Result R :=
  if decide (x < 0) then Raise (ValueError "math domain error") else OK (sqrt x).

(** [max(a, b)]: the first argument unless the second is strictly greater. *)
Definition py_max (a b : R) : R := if decide (a < b) then b else a.

(** [min(a, b)]: the first argument unless the second is strictly smaller. *)
Definition py_min (a b : R) : R := if decide (b < a) then b else a.

(** [l[i]] for a non-negative index. *)
Definition py_getitem {A : Type} (l : list A) (i : nat) : Result A :=
  match l !! i with
  | Some x => OK x
  | None => Raise IndexError
  end.

(** [l[i] = v] for a non-negative index: in place, never extends the list. *)
Definition py_setitem {A : Type} (l : list A) (i : nat) (v : A) : Result (list A) :=
  if decide (i < length l)%nat then OK (<[i:=v]> l) else Raise IndexError.

(** [range(n)], and [range(n - 1, s - 1, -1)]: from [n - 1] down to [s]. *)
Definition py_range (n : nat) : list nat := seq 0 n.
Definition py_range_down_to (n s : nat) : list nat := rev (seq s (n - s)).
Definition py_range_down (n : nat) : list nat := py_range_down_to n 0.

(** ** binomial_option.py *)

Module Binomial.

Definition _validate_inputs (spot strike maturity : R) (steps : Z) : Result unit :=
  if decide (spot <= 0) then Raise (ValueError msg_spot)
  else if decide (strike <= 0) then Raise (ValueError msg_strike)
  else if decide (maturity <= 0) then Raise (ValueError msg_maturity)
  else if decide (steps < 1)%Z then Raise (ValueError msg_steps)
  else OK tt.

(** The derived quantities of lines 81-94. *)
Record lattice : Type := Lattice {
  up : R;
  down : R;
  prob_up : R;
  discount : R
}.

Definition derive (rate volatility maturity : R) (steps : Z) (dividend_yield : R)
  : Result lattice :=
  dt ← py_div maturity (IZR steps);
  if decide (dt = 0) then Raise (ValueError msg_dt) else
  root ← py_sqrt dt;
  let up := exp (volatility * root) in
  down ← py_div 1 up;
  let growth := exp ((rate - dividend_yield) * dt) in
  prob_up ← py_div (growth - down) (up - down);
  if negb (bool_decide (0 <= prob_up) && bool_decide (prob_up <= 1))
  then Raise (ValueError msg_prob)
  else OK (Lattice up down prob_up (exp (- rate * dt))).

(** The intrinsic value at node [(step, i)]: lines 99-100 and 110-111. *)
Definition intrinsic (spot strike : R) (option_type : string) (L : lattice)
    (step i : nat) : R :=
  let asset_price := spot * (up L ^ i) * (down L ^ (step - i)) in
  if bool_decide (option_type = "call")
  then py_max (asset_price - strike) 0
  else py_max (strike - asset_price) 0.

(** Lines 97-101: the terminal payoffs, appended one by one. *)
Definition terminal_payoffs (spot strike : R) (option_type : string) (L : lattice)
    (n : nat) : list R :=
  fold_left (fun payoffs i => payoffs ++ [intrinsic spot strike option_type L n i])
            (py_range (n + 1)) [].

(** Lines 107-114: the body of the inner loop, updating [payoffs[i]]. *)
Definition update_node (spot strike : R) (option_type : string) (american : bool)
    (L : lattice) (step : nat) (payoffs : list R) (i : nat) : Result (list R) :=
  hi ← py_getitem payoffs (i + 1);
  lo ← py_getitem payoffs i;
  let continuation := discount L * (prob_up L * hi + (1 - prob_up L) * lo) in
  if american
  then py_setitem payoffs i
         (py_max continuation (intrinsic spot strike option_type L step i))
  else py_setitem payoffs i continuation.

(** Lines 106-114: one pass of the inner loop, for a given [step]. *)
Definition backward_step (spot strike : R) (option_type : string) (american : bool)
    (L : lattice) (payoffs : list R) (step : nat) : Result (list R) :=
  foldM (update_node spot strike option_type american L step) payoffs
        (py_range (step + 1)).

(** Lines 105-114 restricted to a list of steps (the whole loop runs over
    [py_range_down n]). *)
Definition backward_induction (spot strike : R) (option_type : string)
    (american : bool) (L : lattice) (payoffs : list R) (todo : list nat)
  : Result (list R) :=
  foldM (backward_step spot strike option_type american L) payoffs todo.

(** The state of [payoffs] when the function reaches its [return]. *)
Definition final_payoffs (spot strike rate volatility maturity : R) (steps : Z)
    (option_type exercise : string) (dividend_yield : R) : Result (list R) :=
  _ ← _validate_inputs spot strike maturity steps;
  L ← derive rate volatility maturity steps dividend_yield;
  let n := Z.to_nat steps in
  let payoffs := terminal_payoffs spot strike option_type L n in
  let american := bool_decide (exercise = "american") in
  backward_induction spot strike option_type american L payoffs (py_range_down n).

Definition price_binomial_option (spot strike rate volatility maturity : R)
    (steps : Z) (option_type exercise : string) (dividend_yield : R) : Result R :=
  payoffs ← final_payoffs spot strike rate volatility maturity steps
              option_type exercise dividend_yield;
  py_getitem payoffs 0.

(** *** The lattice as a function of the node

    [node_value] is the value the inner loop stores at node [(step, i)] from
    the two values above it; [lattice_value k i] is the value of node
    [(n - k, i)], that is after [k] backward steps. *)

Definition node_value (spot strike : R) (option_type : string) (american : bool)
    (L : lattice) (step i : nat) (hi lo : R) : R :=
  let continuation := discount L * (prob_up L * hi + (1 - prob_up L) * lo) in
  if american
  then py_max continuation (intrinsic spot strike option_type L step i)
  else continuation.

Fixpoint lattice_value (spot strike : R) (option_type : string) (american : bool)
    (L : lattice) (n k i : nat) : R :=
  match k with
  | O => intrinsic spot strike option_type L n i
  | S k' =>
      node_value spot strike option_type american L (n - S k') i
        (lattice_value spot strike option_type american L n k' (i + 1))
        (lattice_value spot strike option_type american L n k' i)
  end.

(** The discounted expectation of the terminal payoff under the binomial
    distribution with parameters [n] and [prob_up L]. *)
Definition discounted_expectation (spot strike rate maturity : R)
    (option_type : string) (L : lattice) (n : nat) : R :=
  exp (- rate * maturity) *
  sum_f_R0 (fun i => C n i * prob_up L ^ i * (1 - prob_up L) ^ (n - i) *
                     intrinsic spot strike option_type L n i) n.

(** Pascal's triangle. *)
Fixpoint binom (n k : nat) : nat :=
  match n, k with
  | _, O => 1
  | O, S _ => 0
  | S n', S k' => binom n' k' + binom n' k
  end.

(** A binomially weighted sum of [g 0 .. g k]. *)
Definition weighted_sum (x y : R) (g : nat -> R) (k : nat) : R :=
  sum_f_R0 (fun j => INR (binom k j) * x ^ j * y ^ (k - j) * g j) k.

(** The quantities of lines 81-94 as formulas of the inputs. *)
Definition time_step (maturity : R) (steps : Z) : R := maturity / IZR steps.

Definition up_factor (volatility maturity : R) (steps : Z) : R :=
  exp (volatility * sqrt (time_step maturity steps)).

Definition down_factor (volatility maturity : R) (steps : Z) : R :=
  1 / up_factor volatility maturity steps.

Definition growth_factor (rate dividend_yield maturity : R) (steps : Z) : R :=
  exp ((rate - dividend_yield) * time_step maturity steps).

Definition risk_neutral_probability (rate volatility maturity : R) (steps : Z)
    (dividend_yield : R) : R :=
  (growth_factor rate dividend_yield maturity steps
   - down_factor volatility maturity steps)
  / (up_factor volatility maturity steps - down_factor volatility maturity steps).

Definition lattice_of (rate volatility maturity : R) (steps : Z)
    (dividend_yield : R) : lattice :=
  Lattice (up_factor volatility maturity steps)
          (down_factor volatility maturity steps)
          (risk_neutral_probability rate volatility maturity steps dividend_yield)
          (exp (- rate * time_step maturity steps)).

End Binomial.

(** ** monte_carlo_option.py: the simulation engine *)

(** [random.Random]: a generator is a state; [random.Random(seed)] builds
    one from an integer seed and [rng.normalvariate(0.0, 1.0)] returns a
    draw together with the advanced state. *)
Class RandomGen (G : Type) : Type := {
  Random_seeded : Z -> G;
  normalvariate : G -> R * G
}.

(** [sum(xs)]: left to right, starting from 0. *)
Definition py_sum (xs : list R) : R := fold_left Rplus xs 0.

Module MonteCarlo.

Definition _validate_inputs (spot volatility maturity : R) (steps paths : Z)
  : Result unit :=
  if decide (spot <= 0) then Raise (ValueError msg_spot)
  else if decide (volatility < 0) then Raise (ValueError msg_volatility)
  else if decide (maturity <= 0) then Raise (ValueError msg_maturity)
  else if decide (steps < 1)%Z then Raise (ValueError msg_steps)
  else if decide (paths < 1)%Z then Raise (ValueError msg_paths)
  else OK tt.

Section Engine.
Context {G : Type} `{RandomGen G}.

(** [random.Random(seed)]: with [seed=None] the state comes from the
    operating system's entropy, an input of the run. *)
Definition Random (seed : option Z) (os_entropy : G) : G :=
  match seed with
  | Some n => Random_seeded n
  | None => os_entropy
  end.

(** Lines 55-58: the loop state is [(prices, current, rng)]. *)
Definition path_step (drift diffusion : R) (st : list R * R * G) (_ : nat)
  : list R * R * G :=
  let '(prices, current, rng) := st in
  let '(z, rng') := normalvariate rng in
  let current' := current * exp (drift + diffusion * z) in
  (prices ++ [current'], current', rng').

Definition _simulate_path (spot rate volatility dividend_yield maturity : R)
    (steps : Z) (rng : G) : Result (list R * G) :=
  dt ← py_div maturity (IZR steps);
  let drift := (rate - dividend_yield - 0.5 * volatility * volatility) * dt in
  root ← py_sqrt dt;
  let diffusion := volatility * root in
  let '(prices, _, rng') :=
    fold_left (path_step drift diffusion) (py_range (Z.to_nat steps))
              ([spot], spot, rng) in
  OK (prices, rng').

(** Lines 149-159: the loop state is [(payoffs, rng)]. *)
Definition trial (spot rate volatility dividend_yield maturity : R) (steps : Z)
    (payoff : list R -> Result R) (st : list R * G) (_ : nat)
  : Result (list R * G) :=
  let '(payoffs, rng) := st in
  '(path, rng') ← _simulate_path spot rate volatility dividend_yield maturity
                    steps rng;
  v ← payoff path;
  OK (payoffs ++ [v], rng').

Definition price_monte_carlo_option (spot rate volatility maturity : R)
    (steps paths : Z) (payoff : list R -> Result R) (dividend_yield : R)
    (seed : option Z) (os_entropy : G) : Result R :=
  _ ← _validate_inputs spot volatility maturity steps paths;
  let rng := Random seed os_entropy in
  let discount := exp (- rate * maturity) in
  '(payoffs, _) ← foldM (trial spot rate volatility dividend_yield maturity
                           steps payoff)
                        ([], rng) (py_range (Z.to_nat paths));
  mean ← py_div (py_sum payoffs) (INR (length payoffs));
  OK (discount * mean).

(** *** The draws of a generator, and the path they determine *)

(** The state after [k] draws, and the [k]-th draw (from 0). *)
Fixpoint advance (k : nat) (rng : G) : G :=
  match k with
  | O => rng
  | S k' => advance k' (snd (normalvariate rng))
  end.

Definition draw (rng : G) (k : nat) : R := fst (normalvariate (advance k rng)).

(** The next [k] draws, in order. *)
Fixpoint draws (k : nat) (rng : G) : list R :=
  match k with
  | O => []
  | S k' => let '(z, rng') := normalvariate rng in z :: draws k' rng'
  end.

(** The prices that follow [current] when the draws are [zs]. *)
Fixpoint gbm_from (drift diffusion current : R) (zs : list R) : list R :=
  match zs with
  | [] => []
  | z :: zs' =>
      let current' := current * exp (drift + diffusion * z) in
      current' :: gbm_from drift diffusion current' zs'
  end.

Definition gbm_path (spot drift diffusion : R) (zs : list R) : list R :=
  spot :: gbm_from drift diffusion spot zs.

(** The paths of [m] consecutive trials of [n] steps each. *)
Fixpoint paths_from (spot drift diffusion : R) (n m : nat) (rng : G)
  : list (list R) :=
  match m with
  | O => []
  | S m' =>
      gbm_path spot drift diffusion (draws n rng)
      :: paths_from spot drift diffusion n m' (advance n rng)
  end.

End Engine.

End MonteCarlo.

(** A small deterministic generator to run the engine on: a linear
    congruential state in [0, 16) whose draw is the centred state. *)
#[global] Instance lcg_gen : RandomGen Z := {
  Random_seeded n := (n mod 16)%Z;
  normalvariate st := (IZR (st - 8) / 8, ((5 * st + 3) mod 16)%Z)
}.

(** ** monte_carlo_option.py: payoff expressions

    [build_expression_payoff] hands the expression text to Python's own
    [compile] and [eval].  Both are modelled on a fragment of Python's
    expression language: names, decimal integer literals, unary minus,
    [+ - * /], [and]/[or], calls with positional arguments, attribute access
    and subscripts, in texts of at most 200 characters and 50 tokens.  A
    text or an operation outside the fragment yields [Unsupported], which
    stands for no Python behaviour at all; every other outcome is the one
    Python produces. *)

(** What the running interpreter contributes to the namespace of an
    expression: the names [dir(math)] lists, which differ between Python
    versions.  The properties below are proved for every such list. *)
Class Interpreter : Type := { dir_math : list string }.

Module Payoff.

(** *** Syntax *)

Inductive binop : Type := Add | Sub | Mul | Div.

#[warnings="-register-all"] Inductive expr : Type :=
| EInt (z : Z)
| EName (x : string)
| ENeg (e : expr)
| EBin (op : binop) (a b : expr)
| EAnd (a b : expr)
| EOr (a b : expr)
| ECall (f : expr) (args : list expr)
| EAttr (e : expr) (name : string)
| EIndex (e i : expr).

Inductive token : Type :=
| TName (x : string)
| TInt (z : Z)
| TLParen | TRParen | TLBrack | TRBrack
| TComma | TDot
| TPlus | TMinus | TStar | TSlash
| TAnd | TOr
| TAssign
| TKeyword (w : string)
| TJunk (c : ascii).

(** *** Lexer *)

Definition is_digit (c : ascii) : bool :=
  let n := Ascii.N_of_ascii c in ((48 <=? n) && (n <=? 57))%N.

Definition is_letter (c : ascii) : bool :=
  let n := Ascii.N_of_ascii c in
  (((65 <=? n) && (n <=? 90)) || ((97 <=? n) && (n <=? 122)) || (n =? 95))%N.

Definition digit_value (c : ascii) : Z := Z.of_N (Ascii.N_of_ascii c) - 48.

Definition digits_value (ds : list ascii) : Z :=
  fold_left (fun acc c => 10 * acc + digit_value c)%Z ds 0%Z.

(** Python's reserved words, none of which is a name. *)
Definition keywords : list string :=
  ["False"; "None"; "True"; "and"; "as"; "assert"; "async"; "await"; "break";
   "class"; "continue"; "def"; "del"; "elif"; "else"; "except"; "finally";
   "for"; "from"; "global"; "if"; "import"; "in"; "is"; "lambda"; "nonlocal";
   "not"; "or"; "pass"; "raise"; "return"; "try"; "while"; "with"; "yield"].

(** The reserved words that occur in statements only: no expression
    contains one of them. *)
Definition statement_keywords : list string :=
  ["as"; "assert"; "break"; "class"; "continue"; "def"; "del"; "elif";
   "except"; "finally"; "global"; "import"; "nonlocal"; "pass"; "raise";
   "return"; "try"; "while"; "with"].

(** The characters of the ASCII range that occur in no Python token outside
    strings and comments. *)
Definition junk_characters : list ascii :=
  [";"%char; "$"%char; "?"%char; "`"%char].

Inductive lex_state : Type :=
| Idle
| InName (acc : list ascii)
| InNum (acc : list ascii).

(** The token a finished word stands for.  The compiler replaces
    [__debug__] by a constant, which the fragment does not have. *)
Definition flush (st : lex_state) : Result (list token) :=
  match st with
  | Idle => OK []
  | InName acc =>
      let w := string_of_list_ascii acc in
      if bool_decide (w = "and") then OK [TAnd]
      else if bool_decide (w = "or") then OK [TOr]
      else if bool_decide (w ∈ statement_keywords) then OK [TKeyword w]
      else if bool_decide (w ∈ keywords) then Raise Unsupported
      else if bool_decide (w = "__debug__") then Raise Unsupported
      else OK [TName w]
  | InNum acc =>
      match acc with
      | "0"%char :: _ :: _ => Raise Unsupported
      | _ => OK [TInt (digits_value acc)]
      end
  end.

Definition next_is (p : ascii -> bool) (cs : list ascii) : bool :=
  match cs with
  | c :: _ => p c
  | [] => false
  end.

(** The token of a punctuation character, given the characters after it. *)
Definition punct (c : ascii) (rest : list ascii) : Result (list token) :=
  if bool_decide (c = " "%char) then OK []
  else if bool_decide (c = "("%char) then OK [TLParen]
  else if bool_decide (c = ")"%char) then OK [TRParen]
  else if bool_decide (c = "["%char) then OK [TLBrack]
  else if bool_decide (c = "]"%char) then OK [TRBrack]
  else if bool_decide (c = ","%char) then OK [TComma]
  else if bool_decide (c = "+"%char) then OK [TPlus]
  else if bool_decide (c = "-"%char) then OK [TMinus]
  else if bool_decide (c = "."%char) then
    if next_is is_digit rest || next_is (fun d => bool_decide (d = "."%char)) rest
    then Raise Unsupported else OK [TDot]
  else if bool_decide (c = "*"%char) then
    if next_is (fun d => bool_decide (d = "*"%char)) rest
    then Raise Unsupported else OK [TStar]
  else if bool_decide (c = "/"%char) then
    if next_is (fun d => bool_decide (d = "/"%char)) rest
    then Raise Unsupported else OK [TSlash]
  else if bool_decide (c = "="%char) then
    if next_is (fun d => bool_decide (d = "="%char)) rest
    then Raise Unsupported else OK [TAssign]
  else if bool_decide (c ∈ junk_characters) then OK [TJunk c]
  else Raise Unsupported.

Fixpoint lex (st : lex_state) (cs : list ascii) : Result (list token) :=
  match cs with
  | [] => flush st
  | c :: cs' =>
      if is_digit c then
        match st with
        | Idle => lex (InNum [c]) cs'
        | InName acc => lex (InName (acc ++ [c])) cs'
        | InNum acc => lex (InNum (acc ++ [c])) cs'
        end
      else if is_letter c then
        match st with
        | Idle => lex (InName [c]) cs'
        | InName acc => lex (InName (acc ++ [c])) cs'
        | InNum _ => Raise Unsupported
        end
      else
        match st, bool_decide (c = "."%char) with
        | InNum _, true => Raise Unsupported
        | _, _ =>
            word ← flush st;
            p ← punct c cs';
            ts ← lex Idle cs';
            OK (word ++ p ++ ts)
        end
  end.

Definition tokenize (text : string) : Result (list token) :=
  let cs := list_ascii_of_string text in
  if next_is (fun c => bool_decide (c = " "%char)) cs then Raise Unsupported
  else lex Idle cs.

(** *** Parser

    Precedence levels: 0 [or], 1 [and], 2 [+ -], 3 [* /], 4 unary minus and
    primaries.  The text has been split into tokens before the parser
    runs, so it holds no character outside the fragment.  The parser
    answers [SyntaxError] only where every Python parser does: when the
    input ends where more is required, when a token that cannot start an
    operand stands where an operand is required, when a name or a number
    follows a complete operand, and when it meets a statement keyword or a
    character of no token.  Any other token the fragment has no rule for is
    [Unsupported]. *)

(** The verdict on a token that stands where an operand must start. *)
Definition bad_operand (t : token) : exn :=
  match t with
  | TComma | TDot | TSlash | TAnd | TOr | TAssign | TKeyword _ | TJunk _ =>
      SyntaxError
  | _ => Unsupported
  end.

(** The verdict on a token that follows a complete operand inside brackets,
    where a closing bracket or a comma was expected. *)
Definition bad_follower (t : token) : exn :=
  match t with
  | TName _ | TInt _ | TKeyword _ | TJunk _ => SyntaxError
  | _ => Unsupported
  end.

(** The verdict on a token that follows a complete expression at the top
    level. *)
Definition bad_tail (t : token) : exn :=
  match t with
  | TName _ | TInt _ | TRParen | TRBrack | TAssign | TKeyword _ | TJunk _ =>
      SyntaxError
  | _ => Unsupported
  end.

Definition binop_of (lvl : nat) (t : token) : option (expr -> expr -> expr) :=
  match lvl, t with
  | 0%nat, TOr => Some EOr
  | 1%nat, TAnd => Some EAnd
  | 2%nat, TPlus => Some (EBin Add)
  | 2%nat, TMinus => Some (EBin Sub)
  | 3%nat, TStar => Some (EBin Mul)
  | 3%nat, TSlash => Some (EBin Div)
  | _, _ => None
  end.

Fixpoint parse_level (fuel lvl : nat) (ts : list token) {struct fuel}
  : Result (expr * list token) :=
  match fuel with
  | O => Raise Unsupported
  | S fuel' =>
      if decide (lvl < 4)%nat then
        '(lhs, rest) ← parse_level fuel' (lvl + 1)%nat ts;
        parse_rest fuel' lvl lhs rest
      else
        match ts with
        | [] => Raise SyntaxError
        | TMinus :: ts' =>
            '(e, rest) ← parse_level fuel' 4%nat ts'; OK (ENeg e, rest)
        | TName x :: ts' => parse_trailers fuel' (EName x) ts'
        | TInt z :: ts' => parse_trailers fuel' (EInt z) ts'
        | TLParen :: ts' =>
            '(e, rest) ← parse_level fuel' 0%nat ts';
            match rest with
            | [] => Raise SyntaxError
            | TRParen :: rest' => parse_trailers fuel' e rest'
            | t :: _ => Raise (bad_follower t)
            end
        | t :: _ => Raise (bad_operand t)
        end
  end
with parse_rest (fuel lvl : nat) (lhs : expr) (ts : list token) {struct fuel}
  : Result (expr * list token) :=
  match fuel with
  | O => Raise Unsupported
  | S fuel' =>
      match ts with
      | t :: ts' =>
          match binop_of lvl t with
          | Some mk =>
              '(rhs, rest) ← parse_level fuel' (lvl + 1)%nat ts';
              parse_rest fuel' lvl (mk lhs rhs) rest
          | None => OK (lhs, ts)
          end
      | [] => OK (lhs, ts)
      end
  end
with parse_trailers (fuel : nat) (e : expr) (ts : list token) {struct fuel}
  : Result (expr * list token) :=
  match fuel with
  | O => Raise Unsupported
  | S fuel' =>
      match ts with
      | TDot :: TName x :: ts' => parse_trailers fuel' (EAttr e x) ts'
      | TDot :: [] => Raise SyntaxError
      | TDot :: _ => Raise Unsupported
      | TLBrack :: ts' =>
          '(i, rest) ← parse_level fuel' 0%nat ts';
          match rest with
          | [] => Raise SyntaxError
          | TRBrack :: rest' => parse_trailers fuel' (EIndex e i) rest'
          | t :: _ => Raise (bad_follower t)
          end
      | TLParen :: TRParen :: ts' => parse_trailers fuel' (ECall e []) ts'
      | TLParen :: ts' =>
          '(args, rest) ← parse_args fuel' ts';
          parse_trailers fuel' (ECall e args) rest
      | _ => OK (e, ts)
      end
  end
with parse_args (fuel : nat) (ts : list token) {struct fuel}
  : Result (list expr * list token) :=
  match fuel with
  | O => Raise Unsupported
  | S fuel' =>
      '(a, rest) ← parse_level fuel' 0%nat ts;
      match rest with
      | [] => Raise SyntaxError
      | TRParen :: rest' => OK ([a], rest')
      | TComma :: rest' =>
          '(args, rest'') ← parse_args fuel' rest'; OK (a :: args, rest'')
      | t :: _ => Raise (bad_follower t)
      end
  end.

(** The longest token sequence the fragment covers; it keeps the nesting
    of an expression far below the limits of every Python parser. *)
Definition max_tokens : nat := 50.

Definition parse_tokens (ts : list token) : Result expr :=
  if decide (max_tokens < length ts)%nat then Raise Unsupported else
  '(e, rest) ← parse_level (8 * (length ts + 1)) 0 ts;
  match rest with
  | [] => OK e
  | t :: _ => Raise (bad_tail t)
  end.

(** The longest text the fragment covers; it keeps every integer literal
    below the length at which recent Python versions refuse to convert
    it. *)
Definition max_length : nat := 200.

(** [compile(expression, "<payoff>", "eval")]. *)
Definition py_compile (expression : string) : Result expr :=
  if decide (max_length < String.length expression)%nat then Raise Unsupported
  else
    ts ← tokenize expression;
    parse_tokens ts.

(** *** Values and the evaluator *)

Inductive value : Type :=
| VInt (z : Z)
| VFloat (r : R)
| VNonFinite (name : string)      (* [math.inf], [math.nan] *)
| VNone
| VPath                           (* the list object passed to the payoff *)
| VBuiltin (name : string)        (* a function of [math], [max] or [min] *)
| VBound (name : string)          (* a bound method of the path list *)
| VDict                           (* the empty dict under [__builtins__] *)
| VClass (name : string)          (* a class object *)
| VClassMethod (cls name : string).

(** Evaluation reads and may mutate the path list it was handed: a
    computation maps the list's contents to an outcome and the contents
    afterwards, also when it raises. *)
Definition Eval (A : Type) : Type := list R -> Result A * list R.

#[global] Instance Eval_ret : MRet Eval := fun A a path => (OK a, path).
#[global] Instance Eval_bind : MBind Eval := fun A B f m path =>
  match m path with
  | (OK a, path') => f a path'
  | (Raise e, path') => (Raise e, path')
  end.

Definition lift {A : Type} (r : Result A) : Eval A := fun path => (r, path).

Definition num (v : value) : option R :=
  match v with
  | VInt z => Some (IZR z)
  | VFloat r => Some r
  | _ => None
  end.

(** Values on which the fragment defines no arithmetic. *)
Definition opaque (v : value) : bool :=
  match v with
  | VPath | VNonFinite _ => true
  | _ => false
  end.

(** Name resolution of [eval]: locals, then globals, then the builtins,
    which [safe_globals] replaces by an empty dict. *)
Definition lookup_name (globals locals : gmap string value) (x : string)
  : Result value :=
  match locals !! x with
  | Some v => OK v
  | None =>
      match globals !! x with
      | Some v => OK v
      | None => Raise (NameError x)
      end
  end.

Definition truthy (v : value) : Eval bool := fun path =>
  (OK match v with
      | VInt z => negb (bool_decide (z = 0%Z))
      | VFloat r => negb (bool_decide (r = 0))
      | VNone | VDict => false
      | VPath => negb (bool_decide (path = []))
      | _ => true
      end, path).

Definition negate (v : value) : Result value :=
  match v with
  | VInt z => OK (VInt (- z))
  | VFloat r => OK (VFloat (- r))
  | VNonFinite _ => Raise Unsupported
  | _ => Raise TypeError
  end.

Definition binary (op : binop) (a b : value) : Result value :=
  match a, b with
  | VInt x, VInt y =>
      match op with
      | Add => OK (VInt (x + y))
      | Sub => OK (VInt (x - y))
      | Mul => OK (VInt (x * y))
      | Div => VFloat <$> py_div (IZR x) (IZR y)
      end
  | _, _ =>
      match num a, num b with
      | Some x, Some y =>
          match op with
          | Add => OK (VFloat (x + y))
          | Sub => OK (VFloat (x - y))
          | Mul => OK (VFloat (x * y))
          | Div => VFloat <$> py_div x y
          end
      | _, _ => if opaque a || opaque b then Raise Unsupported else Raise TypeError
      end
  end.

Definition getattr (v : value) (name : string) : Result value :=
  match v with
  | VPath =>
      if bool_decide (name = "append") then OK (VBound "append")
      else if bool_decide (name = "__class__") then OK (VClass "list")
      else Raise Unsupported
  | VClass c =>
      if bool_decide (c = "list") && bool_decide (name = "__base__")
      then OK (VClass "object")
      else if bool_decide (c = "object") && bool_decide (name = "__subclasses__")
      then OK (VClassMethod "object" "__subclasses__")
      else Raise Unsupported
  | _ => Raise Unsupported
  end.

(** [path[z]]: a negative index counts from the end. *)
Definition subscript (v i : value) : Eval value := fun path =>
  match v, i with
  | VPath, VInt z =>
      let len := Z.of_nat (length path) in
      let k := if decide (z < 0)%Z then (len + z)%Z else z in
      if decide (0 <= k < len)%Z
      then (VFloat <$> py_getitem path (Z.to_nat k), path)
      else (Raise IndexError, path)
  | _, _ => (Raise Unsupported, path)
  end.

(** The larger of two numbers, as a value: the first unless the second is
    strictly greater. *)
Definition pick (greater : bool) (a b : value) : value :=
  match num a, num b with
  | Some x, Some y =>
      if greater then (if decide (x < y) then b else a)
      else (if decide (y < x) then b else a)
  | _, _ => a
  end.

Definition extremum (greater : bool) (args : list value) : Result value :=
  match args with
  | [] => Raise TypeError
  | [v] => match num v with
           | Some _ => Raise TypeError
           | None => Raise Unsupported
           end
  | v :: vs =>
      if forallb (fun a => bool_decide (is_Some (num a))) args
      then OK (fold_left (pick greater) vs v)
      else Raise Unsupported
  end.

Definition call (f : value) (args : list value) : Eval value := fun path =>
  match f with
  | VBuiltin name =>
      (if bool_decide (name = "max") then
         match args, path with
         | [VPath], x :: xs => OK (VFloat (fold_left py_max xs x))
         | _, _ => extremum true args
         end
       else if bool_decide (name = "min") then
         match args, path with
         | [VPath], x :: xs => OK (VFloat (fold_left py_min xs x))
         | _, _ => extremum false args
         end
       else match num <$> args with
            | [Some x] =>
                if bool_decide (name = "exp") then OK (VFloat (exp x))
                else if bool_decide (name = "sqrt") then VFloat <$> py_sqrt x
                else if bool_decide (name = "fabs") then OK (VFloat (Rabs x))
                else Raise Unsupported
            | _ => Raise Unsupported
            end, path)
  | VBound name =>
      match args with
      | [VFloat r] =>
          if bool_decide (name = "append") then (OK VNone, path ++ [r])
          else (Raise Unsupported, path)
      | [_] => (Raise Unsupported, path)
      | _ => if bool_decide (name = "append") then (Raise TypeError, path)
             else (Raise Unsupported, path)
      end
  | VClass _ | VClassMethod _ _ => (Raise Unsupported, path)
  | _ => (Raise TypeError, path)
  end.

Fixpoint py_eval (globals locals : gmap string value) (e : expr) {struct e}
  : Eval value :=
  match e with
  | EInt z => mret (VInt z)
  | EName x => lift (lookup_name globals locals x)
  | ENeg a => v ← py_eval globals locals a; lift (negate v)
  | EBin op a b =>
      va ← py_eval globals locals a;
      vb ← py_eval globals locals b;
      lift (binary op va vb)
  | EAnd a b =>
      va ← py_eval globals locals a;
      t ← truthy va;
      if t : bool then py_eval globals locals b else mret va
  | EOr a b =>
      va ← py_eval globals locals a;
      t ← truthy va;
      if t : bool then mret va else py_eval globals locals b
  | ECall f args =>
      vf ← py_eval globals locals f;
      vargs ← (fix eval_args (es : list expr) : Eval (list value) :=
                 match es with
                 | [] => mret []
                 | a :: es' =>
                     v ← py_eval globals locals a;
                     vs ← eval_args es';
                     mret (v :: vs)
                 end) args;
      call vf vargs
  | EAttr a name => v ← py_eval globals locals a; lift (getattr v name)
  | EIndex a i =>
      va ← py_eval globals locals a;
      vi ← py_eval globals locals i;
      subscript va vi
  end.

(** The sub-expression that evaluation starts with: every construct of the
    fragment evaluates its leftmost operand first. *)
Fixpoint leftmost (e : expr) : expr :=
  match e with
  | EInt _ | EName _ => e
  | ENeg a | EBin _ a _ | EAnd a _ | EOr a _ | ECall a _ | EAttr a _
  | EIndex a _ => leftmost a
  end.

(** [float(v)]. *)
Definition py_float (v : value) : Result R :=
  match v with
  | VInt z => OK (IZR z)
  | VFloat r => OK r
  | VNonFinite _ => Raise Unsupported
  | _ => Raise TypeError
  end.

(** *** build_expression_payoff *)

(** [name.startswith("_")]. *)
Definition is_private (name : string) : bool :=
  match name with
  | String c _ => bool_decide (c = "_"%char)
  | EmptyString => false
  end.

(** Line 78: the names of [dir(math)] that do not start with an
    underscore. *)
Definition math_dir `{Interpreter} : list string :=
  filter (fun name => is_private name = false) dir_math.

(** [getattr(math, name)]: the constants are floats, every other public
    name of [math] is a function. *)
Definition math_attr (name : string) : value :=
  if bool_decide (name = "pi") then VFloat PI
  else if bool_decide (name = "e") then VFloat (exp 1)
  else if bool_decide (name = "tau") then VFloat (2 * PI)
  else if bool_decide (name ∈ ["inf"; "nan"]) then VNonFinite name
  else VBuiltin name.

Definition math_namespace `{Interpreter} : gmap string value :=
  list_to_map ((fun name => (name, math_attr name)) <$> math_dir).

(** Line 79; in a dict display a later key replaces an earlier one. *)
Definition safe_globals `{Interpreter} : gmap string value :=
  <["__builtins__" := VDict]>
    (<["min" := VBuiltin "min"]> (<["max" := VBuiltin "max"]> math_namespace)).

(** [path[-1]] and [path[0]] on the argument of the payoff. *)
Definition last_price (path : list R) : Result R :=
  match length path with
  | O => Raise IndexError
  | S k => py_getitem path k
  end.

(** Lines 83-90: the five standard bindings, then [**extra_context]. *)
Definition standard_vars (path : list R) : Result (gmap string value) :=
  s ← last_price path;
  st ← last_price path;
  spot ← py_getitem path 0;
  OK (<["step" := VInt (Z.of_nat (length path) - 1)]>
        (<["spot" := VFloat spot]>
           (<["st" := VFloat st]>
              (<["s" := VFloat s]> (<["path" := VPath]> ∅))))).

Definition local_vars (extra_context : gmap string R) (path : list R)
  : Result (gmap string value) :=
  std ← standard_vars path;
  OK ((VFloat <$> extra_context) ∪ std).

(** A payoff function returns its result together with the contents of the
    list it was called on, which evaluation may have changed. *)
Definition PayoffFunc : Type := list R -> Result R * list R.

(** Lines 82-91. *)
Definition payoff `{Interpreter} (code : expr) (extra_context : gmap string R)
  : PayoffFunc :=
  fun path =>
    match local_vars extra_context path with
    | Raise e => (Raise e, path)
    | OK locals =>
        match py_eval safe_globals locals code path with
        | (OK v, path') => (py_float v, path')
        | (Raise e, path') => (Raise e, path')
        end
    end.

(** Lines 77-93; [extra_context or {}] turns [None] into the empty dict. *)
Definition build_expression_payoff `{Interpreter} (expression : string)
    (extra_context : option (gmap string R)) : Result PayoffFunc :=
  code ← py_compile expression;
  OK (payoff code (default ∅ extra_context)).

(** The payoff as the pricing engine uses it: the path is dropped after the
    call. *)
Definition as_engine_payoff (f : PayoffFunc) : list R -> Result R :=
  fun path => fst (f path).

End Payoff.

(** [dir(math)] of CPython 3.9, the oldest version the module loads on;
    later versions add names ([cbrt], [exp2], [sumprod], [fma]). *)
#[global] Instance cpython39 : Interpreter := {|
  dir_math :=
    ["__doc__"; "__file__"; "__loader__"; "__name__"; "__package__";
     "__spec__";
     "acos"; "acosh"; "asin"; "asinh"; "atan"; "atan2"; "atanh"; "ceil";
     "comb"; "copysign"; "cos"; "cosh"; "degrees"; "dist"; "e"; "erf"; "erfc";
     "exp"; "expm1"; "fabs"; "factorial"; "floor"; "fmod"; "frexp"; "fsum";
     "gamma"; "gcd"; "hypot"; "inf"; "isclose"; "isfinite"; "isinf"; "isnan";
     "isqrt"; "lcm"; "ldexp"; "lgamma"; "log"; "log10"; "log1p"; "log2";
     "modf"; "nan"; "nextafter"; "perm"; "pi"; "pow"; "prod"; "radians";
     "remainder"; "sin"; "sinh"; "sqrt"; "tan"; "tanh"; "tau"; "trunc"; "ulp"]
|}.

(** ** web_option_server.py

    The handlers are modelled from the decoded request body on: what
    [request.get_json(silent=True)] returns is an input, and a response is
    the pair of its body and its status code.  Python's conversions of a
    string to a number and of a non-string value to text are parameters. *)

Module WebServer.

(** A decoded JSON value.  A number is finite, as JSON has it; the
    literals [Infinity] and [NaN], which Python's decoder also accepts, are
    outside the model. *)
#[warnings="-register-all"] Inductive json : Type :=
| JNull
| JBool (b : bool)
| JInt (z : Z)
| JFloat (r : R)
| JStr (s : string)
| JArray (items : list json)
| JObject (fields : gmap string json).

Record PricingRequest : Type := {
  spot : R;
  strike : R;
  rate : R;
  volatility : R;
  maturity : R;
  steps : Z;
  paths : Z;
  dividend_yield : R;
  payoff_expression : string;
  seed : option Z
}.

(** What a handler can catch besides the exceptions of the engines: a
    decoded body that is not a dict has no [get]. *)
Inductive failure : Type :=
| PyError (e : exn)
| AttributeError.

Inductive outcome : Type :=
| Priced (price : R) (inputs : PricingRequest)
| Failed (e : failure).

(** [bool(v)] is false. *)
Definition falsy (v : json) : bool :=
  match v with
  | JNull => true
  | JBool b => negb b
  | JInt z => bool_decide (z = 0%Z)
  | JFloat r => bool_decide (r = 0)
  | JStr s => bool_decide (s = "")
  | JArray [] => true
  | JArray (_ :: _) => false
  | JObject fields => bool_decide (size fields = 0%nat)
  end.

(** The least integer magnitude that [float()] refuses with
    [OverflowError]: halfway between the largest double and [2^1024]. *)
Definition float_overflow : Z := (2 ^ 1024 - 2 ^ 970)%Z.

(** [int(r)] on a float rounds towards zero. *)
Definition truncate (r : R) : Z :=
  if decide (0 <= r) then Int_part r else (- Int_part (- r))%Z.

Section Handlers.
Context (str_to_float : string -> option R) (str_to_int : string -> option Z)
        (py_str : json -> string).
Context {G : Type} `{RandomGen G} `{Interpreter}.

(** [float(value)]; the text of a [ValueError] is dropped, the callers
    replace it.  An integer beyond the range of a double raises
    [OverflowError]. *)
Definition float_of (value : json) : Result R :=
  match value with
  | JBool b => OK (if b then 1 else 0)
  | JInt z =>
      if decide (Z.abs z < float_overflow)%Z then OK (IZR z)
      else Raise OverflowError
  | JFloat r => OK r
  | JStr s =>
      match str_to_float s with
      | Some r => OK r
      | None => Raise (ValueError "")
      end
  | JNull | JArray _ | JObject _ => Raise TypeError
  end.

(** [int(value)]. *)
Definition int_of (value : json) : Result Z :=
  match value with
  | JBool b => OK (if b then 1 else 0)%Z
  | JInt z => OK z
  | JFloat r => OK (truncate r)
  | JStr s =>
      match str_to_int s with
      | Some z => OK z
      | None => Raise (ValueError "")
      end
  | JNull | JArray _ | JObject _ => Raise TypeError
  end.

(** [str(value)]. *)
Definition str_of (value : json) : string :=
  match value with
  | JStr s => s
  | _ => py_str value
  end.

(** [try: ... except (TypeError, ValueError): raise ValueError(message)]. *)
Definition reraise {A : Type} (message : string) (r : Result A) : Result A :=
  match r with
  | Raise TypeError | Raise (ValueError _) => Raise (ValueError message)
  | _ => r
  end.

Definition _parse_float (payload : gmap string json) (key : string)
    (default : R) : Result R :=
  let value := match payload !! key with
               | Some v => v
               | None => JFloat default
               end in
  reraise (key +:+ " must be a number") (float_of value).

Definition _parse_int (payload : gmap string json) (key : string)
    (default minimum : Z) : Result Z :=
  let value := match payload !! key with
               | Some v => v
               | None => JInt default
               end in
  parsed ← reraise (key +:+ " must be an integer") (int_of value);
  if decide (parsed < minimum)%Z
  then Raise (ValueError (key +:+ " must be at least " +:+ pretty minimum))
  else OK parsed.

Definition _parse_optional_int (payload : gmap string json) (key : string)
  : Result (option Z) :=
  match payload !! key with
  | None | Some JNull => OK None
  | Some value =>
      if match value with
         | JStr s => bool_decide (s ∈ [""; "none"; "null"])
         | _ => false
         end
      then OK None
      else Some <$> reraise (key +:+ " must be an integer or omitted")
                      (int_of value)
  end.

Definition parse_pricing_request (payload : gmap string json)
  : Result PricingRequest :=
  spot ← _parse_float payload "spot" 100;
  strike ← _parse_float payload "strike" 100;
  rate ← _parse_float payload "rate" 0.05;
  volatility ← _parse_float payload "volatility" 0.2;
  maturity ← _parse_float payload "maturity" 1;
  steps ← _parse_int payload "steps" 252 1;
  paths ← _parse_int payload "paths" 50000 1;
  dividend_yield ← _parse_float payload "dividend_yield" 0;
  let payoff_expression :=
    match payload !! "payoff_expression" with
    | Some v => str_of v
    | None => "max(s - strike, 0)"
    end in
  seed ← _parse_optional_int payload "seed";
  OK {| spot := spot; strike := strike; rate := rate; volatility := volatility;
        maturity := maturity; steps := steps; paths := paths;
        dividend_yield := dividend_yield;
        payoff_expression := payoff_expression; seed := seed |}.

Definition price_option (request_data : PricingRequest) (os_entropy : G)
  : Result R :=
  payoff ← Payoff.build_expression_payoff (payoff_expression request_data)
             (Some {["strike" := strike request_data]});
  MonteCarlo.price_monte_carlo_option
    (spot request_data) (rate request_data) (volatility request_data)
    (maturity request_data) (steps request_data) (paths request_data)
    (Payoff.as_engine_payoff payoff) (dividend_yield request_data)
    (seed request_data) os_entropy.

(** [request.get_json(silent=True) or {}]. *)
Definition get_payload (body : option json) : json :=
  match body with
  | Some v => if falsy v then JObject ∅ else v
  | None => JObject ∅
  end.

(** [api_price]: every Python exception is turned into a response. *)
Definition api_price (body : option json) (os_entropy : G)
  : Result (outcome * Z) :=
  match get_payload body with
  | JObject payload =>
      match (pricing_request ← parse_pricing_request payload;
             price ← price_option pricing_request os_entropy;
             OK (pricing_request, price)) with
      | OK (pricing_request, price) => OK (Priced price pricing_request, 200%Z)
      | Raise (ValueError msg) => OK (Failed (PyError (ValueError msg)), 400%Z)
      | Raise Unsupported => Raise Unsupported
      | Raise e => OK (Failed (PyError e), 500%Z)
      end
  | _ => OK (Failed AttributeError, 500%Z)
  end.

End Handlers.

(** The payoff the default expression ["max(s - strike, 0)"] stands for. *)
Definition call_payoff (strike : R) (path : list R) : Result R :=
  match last path with
  | Some terminal => OK (py_max (terminal - strike) 0)
  | None => Raise IndexError
  end.

End WebServer.

(** An expression without attribute access: no [e.name] anywhere in it. *)
Fixpoint attribute_free (e : Payoff.expr) : bool :=
  match e with
  | Payoff.EInt _ | Payoff.EName _ => true
  | Payoff.ENeg a => attribute_free a
  | Payoff.EBin _ a b | Payoff.EAnd a b | Payoff.EOr a b | Payoff.EIndex a b =>
      attribute_free a && attribute_free b
  | Payoff.ECall f args => attribute_free f && forallb attribute_free args
  | Payoff.EAttr _ _ => false
  end.

(** A value that is not a bound method of the path list. *)
Definition unbound_value (v : Payoff.value) : Prop :=
  match v with
  | Payoff.VBound _ => False
  | _ => True
  end.

(** * Properties *)

(** ** Loops and lists *)

Lemma foldM_app {A B : Type} (body : A -> B -> Result A) (xs ys : list B) (a : A) :
  foldM body a (xs ++ ys) = (a' ← foldM body a xs; foldM body a' ys).
Proof.
  revert a. induction xs as [|x xs IH]; intros a; simpl; [reflexivity|].
  destruct (body a x) as [a'|e]; simpl; [apply IH | reflexivity].
Qed.

Lemma fold_left_append {A B : Type} (g : B -> A) (xs : list B) (init : list A) :
  fold_left (fun acc x => acc ++ [g x]) xs init = init ++ (g <$> xs).
Proof.
  revert init. induction xs as [|x xs IH]; intros init; simpl.
  - by rewrite app_nil_r.
  - rewrite IH. by rewrite <- app_assoc.
Qed.

Lemma py_range_succ (n : nat) : py_range (S n) = py_range n ++ [n].
Proof. unfold py_range. by rewrite seq_S. Qed.

Lemma py_range_down_to_succ (n s : nat) :
  (s < n)%nat -> py_range_down_to n s = py_range_down_to n (S s) ++ [s].
Proof.
  intros Hs. unfold py_range_down_to.
  replace (n - s)%nat with (S (n - S s)) by lia. reflexivity.
Qed.

Lemma py_range_down_to_self (n : nat) : py_range_down_to n n = [].
Proof. unfold py_range_down_to. by rewrite Nat.sub_diag. Qed.

Lemma py_getitem_Some {A : Type} (l : list A) (i : nat) (x : A) :
  l !! i = Some x -> py_getitem l i = OK x.
Proof. unfold py_getitem. by intros ->. Qed.

Lemma py_setitem_ok {A : Type} (l : list A) (i : nat) (x : A) :
  (i < length l)%nat -> py_setitem l i x = OK (<[i:=x]> l).
Proof. intros Hi. unfold py_setitem. case_decide; [reflexivity | lia]. Qed.

Lemma py_div_ok (x y : R) : y <> 0 -> py_div x y = OK (x / y).
Proof. intros Hy. unfold py_div. case_decide; [contradiction | reflexivity]. Qed.

Lemma py_sqrt_ok (x : R) : 0 <= x -> py_sqrt x = OK (sqrt x).
Proof. intros Hx. unfold py_sqrt. case_decide; [lra | reflexivity]. Qed.

Lemma py_max_ge_l (a b : R) : a <= py_max a b.
Proof. unfold py_max. case_decide; lra. Qed.

Lemma py_max_Rmax (a b : R) : py_max a b = Rmax a b.
Proof.
  unfold py_max, Rmax. case_decide; destruct (Rle_dec a b); lra.
Qed.

(** ** The binomial lattice *)

Section LatticeLoop.
Import Binomial.
Context (spot strike : R) (option_type : string) (american : bool) (L : lattice).

Lemma terminal_payoffs_map (n : nat) :
  terminal_payoffs spot strike option_type L n
  = intrinsic spot strike option_type L n <$> seq 0 (n + 1).
Proof. unfold terminal_payoffs, py_range. by rewrite fold_left_append. Qed.

Lemma terminal_payoffs_length (n : nat) :
  length (terminal_payoffs spot strike option_type L n) = (n + 1)%nat.
Proof. rewrite terminal_payoffs_map, length_fmap. apply length_seq. Qed.

Lemma terminal_payoffs_lookup (n i : nat) :
  (i <= n)%nat ->
  terminal_payoffs spot strike option_type L n !! i
  = Some (intrinsic spot strike option_type L n i).
Proof.
  intros Hi. rewrite terminal_payoffs_map, list_lookup_fmap.
  rewrite lookup_seq_lt by lia. reflexivity.
Qed.

(** The inner loop after its first [m] iterations: entries below [m] hold
    the new node values, computed from the old entries; the others are
    untouched; the list keeps its length. *)
Lemma inner_loop_prefix (v : nat -> R) (len step : nat) (p : list R) (m : nat) :
  length p = len ->
  (step + 1 < len)%nat ->
  (m <= step + 1)%nat ->
  (forall i, (i < len)%nat -> p !! i = Some (v i)) ->
  exists p',
    foldM (update_node spot strike option_type american L step) p (py_range m)
    = OK p'
    /\ length p' = len
    /\ forall i, (i < len)%nat ->
         p' !! i = Some (if decide (i < m)%nat
                         then node_value spot strike option_type american L
                                step i (v (i + 1)%nat) (v i)
                         else v i).
Proof.
  intros Hlen Hstep Hm Hp. induction m as [|m IH].
  - exists p. split; [reflexivity|]. split; [assumption|].
    intros i Hi. rewrite Hp by assumption. case_decide; [lia | reflexivity].
  - destruct IH as (p' & Hrun & Hlen' & Hp'); [lia|].
    rewrite py_range_succ, foldM_app, Hrun. simpl.
    unfold update_node.
    rewrite (py_getitem_Some p' (m + 1) (v (m + 1)%nat)).
    2:{ rewrite Hp' by lia. case_decide; [lia | reflexivity]. }
    rewrite (py_getitem_Some p' m (v m)).
    2:{ rewrite Hp' by lia. case_decide; [lia | reflexivity]. }
    simpl.
    exists (<[m := node_value spot strike option_type american L step m
                     (v (m + 1)%nat) (v m)]> p').
    split.
    { unfold node_value.
      destruct american; rewrite py_setitem_ok by lia; reflexivity. }
    split; [by rewrite length_insert|].
    intros i Hi. destruct (decide (i = m)) as [->|Hne].
    + rewrite list_lookup_insert_eq by lia. case_decide; [reflexivity | lia].
    + rewrite list_lookup_insert_ne by congruence. rewrite Hp' by assumption.
      repeat case_decide; try reflexivity; lia.
Qed.

(** One pass of the inner loop. *)
Lemma backward_step_spec (v : nat -> R) (len step : nat) (p : list R) :
  length p = len ->
  (step + 1 < len)%nat ->
  (forall i, (i < len)%nat -> p !! i = Some (v i)) ->
  exists p',
    backward_step spot strike option_type american L p step = OK p'
    /\ length p' = len
    /\ forall i, (i < len)%nat ->
         p' !! i = Some (if decide (i <= step)%nat
                         then node_value spot strike option_type american L
                                step i (v (i + 1)%nat) (v i)
                         else v i).
Proof.
  intros Hlen Hstep Hp.
  destruct (inner_loop_prefix v len step p (step + 1) Hlen Hstep (le_n _) Hp)
    as (p' & Hrun & Hlen' & Hp').
  exists p'. split; [exact Hrun|]. split; [exact Hlen'|].
  intros i Hi. rewrite Hp' by assumption.
  repeat case_decide; try reflexivity; lia.
Qed.

(** The frontier after the passes for [step = n - 1, ..., s]: the list
    still has [n + 1] entries; entry [i <= s] holds the value of node
    [(s, i)] and entry [i > s] still holds the value of node [(i, i)]. *)
Lemma backward_induction_spec (n s : nat) :
  (s <= n)%nat ->
  exists p,
    backward_induction spot strike option_type american L
      (terminal_payoffs spot strike option_type L n) (py_range_down_to n s)
    = OK p
    /\ length p = (n + 1)%nat
    /\ forall i, (i <= n)%nat ->
         p !! i = Some (lattice_value spot strike option_type american L n
                          (n - Nat.max s i) i).
Proof.
  intros Hs. remember (n - s)%nat as d eqn:Hd.
  revert s Hs Hd. induction d as [|d IH]; intros s Hs Hd.
  - assert (s = n) as -> by lia. rewrite py_range_down_to_self.
    exists (terminal_payoffs spot strike option_type L n).
    split; [reflexivity|]. split; [apply terminal_payoffs_length|].
    intros i Hi. rewrite terminal_payoffs_lookup by assumption.
    replace (n - Nat.max n i)%nat with 0%nat by lia. reflexivity.
  - destruct (IH (S s)) as (p & Hrun & Hlen & Hp); [lia | lia |].
    rewrite py_range_down_to_succ by lia.
    unfold backward_induction in *. rewrite foldM_app, Hrun. simpl.
    destruct (backward_step_spec
                (fun i => lattice_value spot strike option_type american L n
                            (n - Nat.max (S s) i) i)
                (n + 1) s p Hlen) as (p' & Hstep & Hlen' & Hp'); [lia | |].
    { intros i Hi. apply Hp. lia. }
    exists p'. rewrite Hstep. split; [reflexivity|]. split; [exact Hlen'|].
    intros i Hi. rewrite Hp' by lia. f_equal. case_decide.
    + replace (n - Nat.max s i)%nat with (S (n - S s)) by lia.
      replace (n - Nat.max (S s) (i + 1))%nat with (n - S s)%nat by lia.
      replace (n - Nat.max (S s) i)%nat with (n - S s)%nat by lia.
      simpl. replace (n - S (n - S s))%nat with s by lia. reflexivity.
    + replace (Nat.max (S s) i) with (Nat.max s i) by lia. reflexivity.
Qed.

End LatticeLoop.

(** ** Binomial sums *)

Section WeightedSums.
Import Binomial.

Lemma binom_0_r (n : nat) : binom n 0 = 1%nat.
Proof. by destruct n. Qed.

Lemma binom_gt (n k : nat) : (n < k)%nat -> binom n k = 0%nat.
Proof.
  revert k. induction n as [|n IH]; intros [|k] Hk; try lia; [reflexivity|].
  simpl. rewrite !IH by lia. reflexivity.
Qed.

Lemma binom_diag (n : nat) : binom n n = 1%nat.
Proof.
  induction n as [|n IH]; [reflexivity|].
  simpl. rewrite IH, binom_gt by lia. reflexivity.
Qed.

(** Pascal's triangle computes the binomial coefficients. *)
Lemma binom_C (n k : nat) : (k <= n)%nat -> INR (binom n k) = C n k.
Proof.
  revert k. induction n as [|n IH]; intros k Hk.
  - assert (k = 0%nat) as -> by lia. simpl. unfold C. simpl. lra.
  - destruct k as [|k].
    + rewrite binom_0_r. unfold C. rewrite Nat.sub_0_r. simpl fact at 2.
      simpl INR at 1 3. field. apply INR_fact_neq_0.
    + destruct (decide (k = n)) as [->|Hne].
      * rewrite binom_diag. unfold C. rewrite Nat.sub_diag. simpl fact at 3.
        simpl INR at 1 4. field. apply INR_fact_neq_0.
      * simpl binom. rewrite plus_INR, !IH by lia. apply pascal. lia.
Qed.

Context (x y : R).

(** One more trial: the sum splits on the outcome of the first one. *)
Lemma weighted_sum_succ (g : nat -> R) (k : nat) :
  weighted_sum x y g (S k)
  = x * weighted_sum x y (fun j => g (S j)) k + y * weighted_sum x y g k.
Proof.
  unfold weighted_sum.
  rewrite decomp_sum by lia. simpl pred.
  set (b := fun j => INR (binom k j) * x ^ j * y ^ (S k - j) * g j).
  transitivity
    (b 0%nat
     + sum_f_R0 (fun j => x * (INR (binom k j) * x ^ j * y ^ (k - j) * g (S j))
                          + b (S j)) k).
  { f_equal.
    - unfold b. rewrite !binom_0_r. reflexivity.
    - apply sum_eq. intros j Hj. unfold b.
      simpl binom. rewrite plus_INR. simpl. ring. }
  rewrite sum_plus, <- Rplus_assoc, (Rplus_comm (b 0%nat)), Rplus_assoc.
  f_equal.
  - rewrite scal_sum. apply sum_eq. intros j _. ring.
  - change (sum_f_R0 (fun j => b (S j)) k)
      with (sum_f_R0 (fun j => b (S j)) (pred (S k))).
    rewrite <- decomp_sum by lia. rewrite tech5.
    replace (b (S k)) with 0.
    2:{ unfold b. rewrite binom_gt by lia. simpl. ring. }
    rewrite Rplus_0_r, scal_sum. apply sum_eq. intros j Hj. unfold b.
    replace (S k - j)%nat with (S (k - j)) by lia. simpl. ring.
Qed.

End WeightedSums.

(** ** Validation and the derived quantities *)

Section LatticeParameters.
Import Binomial.

Lemma validate_ok (spot strike maturity : R) (steps : Z) :
  0 < spot -> 0 < strike -> 0 < maturity -> (1 <= steps)%Z ->
  _validate_inputs spot strike maturity steps = OK tt.
Proof.
  intros. unfold _validate_inputs.
  repeat case_decide; try reflexivity; first [lra | lia].
Qed.

Lemma validate_raises (spot strike maturity : R) (steps : Z) :
  (exists e, _validate_inputs spot strike maturity steps = Raise e)
  <-> spot <= 0 \/ strike <= 0 \/ maturity <= 0 \/ (steps < 1)%Z.
Proof.
  unfold _validate_inputs. split.
  - intros [e He]. repeat case_decide; try discriminate; tauto.
  - intros Hbad. repeat case_decide; eauto.
    exfalso. destruct Hbad as [?|[?|[?|?]]]; first [lra | lia].
Qed.

Lemma validate_raises_invalid_parameter (spot strike maturity : R) (steps : Z)
    (e : exn) :
  _validate_inputs spot strike maturity steps = Raise e ->
  kind_of e = InvalidParameter.
Proof.
  unfold _validate_inputs.
  repeat case_decide; intros He; inversion He; reflexivity.
Qed.

Lemma time_step_pos (maturity : R) (steps : Z) :
  0 < maturity -> (1 <= steps)%Z -> 0 < time_step maturity steps.
Proof.
  intros Hm Hs. unfold time_step. apply Rdiv_lt_0_compat; [assumption|].
  apply IZR_lt. lia.
Qed.

(** With a positive maturity and at least one step, [derive] either
    divides by zero (when [up = down]), rejects the probability, or
    returns the lattice of the formulas. *)
Lemma derive_unfold (rate volatility maturity : R) (steps : Z)
    (dividend_yield : R) :
  0 < maturity -> (1 <= steps)%Z ->
  derive rate volatility maturity steps dividend_yield
  = if decide (up_factor volatility maturity steps
               - down_factor volatility maturity steps = 0)
    then Raise ZeroDivisionError
    else
      let p := risk_neutral_probability rate volatility maturity steps
                 dividend_yield in
      if negb (bool_decide (0 <= p) && bool_decide (p <= 1))
      then Raise (ValueError msg_prob)
      else OK (lattice_of rate volatility maturity steps dividend_yield).
Proof.
  intros Hm Hs. pose proof (time_step_pos maturity steps Hm Hs) as Hdt.
  unfold derive. rewrite py_div_ok.
  2:{ intros Hz. apply eq_IZR in Hz. lia. }
  simpl. fold (time_step maturity steps).
  destruct (decide (time_step maturity steps = 0)); [lra|].
  rewrite py_sqrt_ok by lra.
  simpl. fold (up_factor volatility maturity steps).
  rewrite py_div_ok.
  2:{ pose proof (exp_pos (volatility * sqrt (time_step maturity steps))).
      unfold up_factor. lra. }
  simpl. fold (down_factor volatility maturity steps).
  unfold py_div. case_decide; reflexivity.
Qed.

Lemma exp_pow_INR (a : R) (n : nat) : exp a ^ n = exp (INR n * a).
Proof.
  induction n as [|n IH].
  - simpl. rewrite Rmult_0_l, exp_0. reflexivity.
  - rewrite S_INR. simpl pow. rewrite IH, <- exp_plus. f_equal. ring.
Qed.

(** [steps] discount factors of one time step discount over the maturity. *)
Lemma discount_pow (rate maturity : R) (steps : Z) :
  (1 <= steps)%Z ->
  exp (- rate * time_step maturity steps) ^ Z.to_nat steps
  = exp (- rate * maturity).
Proof.
  intros Hs. rewrite exp_pow_INR. f_equal.
  rewrite INR_IZR_INZ, Z2Nat.id by lia. unfold time_step. field.
  intros Hz. apply eq_IZR in Hz. lia.
Qed.

End LatticeParameters.

(** ** The price is the value of the root node *)

Section LatticePrice.
Import Binomial.
Context (spot strike rate volatility maturity : R) (steps : Z)
        (option_type : string) (dividend_yield : R).

Lemma weighted_sum_ext (x y : R) (g h : nat -> R) (k : nat) :
  (forall j, (j <= k)%nat -> g j = h j) ->
  weighted_sum x y g k = weighted_sum x y h k.
Proof.
  intros Hgh. unfold weighted_sum. apply sum_eq. intros j Hj.
  by rewrite Hgh.
Qed.

(** Without early exercise, [k] backward steps compute a discounted
    binomially weighted sum of the terminal payoffs. *)
Lemma european_lattice_value (L : lattice) (n k i : nat) :
  lattice_value spot strike option_type false L n k i
  = discount L ^ k
    * weighted_sum (prob_up L) (1 - prob_up L)
        (fun j => intrinsic spot strike option_type L n (i + j)) k.
Proof.
  revert i. induction k as [|k IH]; intros i.
  - unfold weighted_sum. simpl. rewrite Nat.add_0_r. ring.
  - simpl lattice_value. unfold node_value. rewrite !IH.
    rewrite weighted_sum_succ.
    rewrite (weighted_sum_ext _ _
               (fun j => intrinsic spot strike option_type L n (i + S j))
               (fun j => intrinsic spot strike option_type L n (i + 1 + j))).
    2:{ intros j _. f_equal. lia. }
    simpl pow. ring.
Qed.

(** Early exercise never lowers the value of a node. *)
Lemma american_lattice_value_ge (L : lattice) (n k i : nat) :
  0 <= prob_up L <= 1 -> 0 <= discount L ->
  lattice_value spot strike option_type false L n k i
  <= lattice_value spot strike option_type true L n k i.
Proof.
  intros Hp Hd. revert i. induction k as [|k IH]; intros i.
  - simpl. lra.
  - simpl lattice_value. unfold node_value.
    pose proof (IH i) as Hlo. pose proof (IH (i + 1)%nat) as Hhi.
    eapply Rle_trans; [|apply py_max_ge_l].
    apply Rmult_le_compat_l; [assumption|].
    apply Rplus_le_compat; apply Rmult_le_compat_l; lra.
Qed.

Lemma final_payoffs_ok (exercise : string) (L : lattice) :
  0 < spot -> 0 < strike -> 0 < maturity -> (1 <= steps)%Z ->
  derive rate volatility maturity steps dividend_yield = OK L ->
  final_payoffs spot strike rate volatility maturity steps option_type exercise
    dividend_yield
  = backward_induction spot strike option_type
      (bool_decide (exercise = "american")) L
      (terminal_payoffs spot strike option_type L (Z.to_nat steps))
      (py_range_down (Z.to_nat steps)).
Proof.
  intros Hspot Hstrike Hm Hs HL. unfold final_payoffs.
  rewrite validate_ok by assumption. simpl. rewrite HL. reflexivity.
Qed.

Lemma price_is_root_value (exercise : string) (L : lattice) :
  0 < spot -> 0 < strike -> 0 < maturity -> (1 <= steps)%Z ->
  derive rate volatility maturity steps dividend_yield = OK L ->
  price_binomial_option spot strike rate volatility maturity steps option_type
    exercise dividend_yield
  = OK (lattice_value spot strike option_type
          (bool_decide (exercise = "american")) L
          (Z.to_nat steps) (Z.to_nat steps) 0).
Proof.
  intros Hspot Hstrike Hm Hs HL. unfold price_binomial_option.
  rewrite (final_payoffs_ok exercise L) by assumption.
  destruct (backward_induction_spec spot strike option_type
              (bool_decide (exercise = "american")) L (Z.to_nat steps) 0)
    as (p & Hrun & _ & Hp); [lia|].
  unfold py_range_down. rewrite Hrun. simpl.
  rewrite (py_getitem_Some p 0 _ (Hp 0%nat ltac:(lia))).
  do 2 f_equal. lia.
Qed.

(** A call that returns has passed validation and derived a lattice. *)
Lemma price_accepted (exercise : string) (v : R) :
  price_binomial_option spot strike rate volatility maturity steps option_type
    exercise dividend_yield = OK v ->
  0 < spot /\ 0 < strike /\ 0 < maturity /\ (1 <= steps)%Z
  /\ up_factor volatility maturity steps <> down_factor volatility maturity steps
  /\ 0 <= risk_neutral_probability rate volatility maturity steps dividend_yield
     <= 1
  /\ derive rate volatility maturity steps dividend_yield
     = OK (lattice_of rate volatility maturity steps dividend_yield).
Proof.
  unfold price_binomial_option, final_payoffs, _validate_inputs.
  destruct (decide (spot <= 0)); [discriminate|].
  destruct (decide (strike <= 0)); [discriminate|].
  destruct (decide (maturity <= 0)); [discriminate|].
  destruct (decide (steps < 1)%Z); [discriminate|].
  simpl. rewrite derive_unfold by first [lra | lia].
  case_decide; [discriminate|]. cbv zeta.
  destruct (bool_decide (0 <= _)) eqn:Hlo; [|discriminate].
  destruct (bool_decide (_ <= 1)) eqn:Hhi; [|discriminate].
  apply bool_decide_eq_true in Hlo, Hhi. simpl. intros _.
  repeat split; first [lra | lia | reflexivity].
Qed.

End LatticePrice.

(** ** Properties of the binomial pricer *)

Section LatticeProperties.
Import Binomial.

Lemma up_eq_down_iff (volatility maturity : R) (steps : Z) :
  0 < maturity -> (1 <= steps)%Z ->
  up_factor volatility maturity steps = down_factor volatility maturity steps
  <-> volatility = 0.
Proof.
  intros Hm Hs. pose proof (time_step_pos maturity steps Hm Hs) as Hdt.
  pose proof (sqrt_lt_R0 _ Hdt) as Hroot.
  unfold down_factor, up_factor.
  set (a := volatility * sqrt (time_step maturity steps)).
  pose proof (exp_pos a) as Hpos. split.
  - intros Heq.
    assert (Hsq : exp (a + a) = exp 0).
    { rewrite exp_plus, exp_0. rewrite Heq at 1. field. lra. }
    apply exp_inv in Hsq. unfold a in Hsq. nra.
  - intros ->. unfold a. rewrite Rmult_0_l, exp_0. lra.
Qed.

(** A sufficient condition for acceptance: the drift over one step is
    within one standard deviation. *)
Lemma probability_in_range (rate volatility maturity : R) (steps : Z)
    (dividend_yield : R) :
  0 < maturity -> (1 <= steps)%Z -> 0 < volatility ->
  - (volatility * sqrt (time_step maturity steps))
    <= (rate - dividend_yield) * time_step maturity steps
    <= volatility * sqrt (time_step maturity steps) ->
  up_factor volatility maturity steps <> down_factor volatility maturity steps
  /\ 0 <= risk_neutral_probability rate volatility maturity steps dividend_yield
     <= 1.
Proof.
  intros Hm Hs Hv Hb. split.
  { rewrite up_eq_down_iff by assumption. lra. }
  pose proof (time_step_pos maturity steps Hm Hs) as Hdt.
  pose proof (sqrt_lt_R0 _ Hdt) as Hroot.
  unfold risk_neutral_probability, growth_factor, down_factor, up_factor.
  set (a := volatility * sqrt (time_step maturity steps)) in *.
  set (b := (rate - dividend_yield) * time_step maturity steps) in *.
  assert (Ha : 0 < a) by (unfold a; nra).
  assert (Hd : 1 / exp a = exp (- a)).
  { rewrite exp_Ropp. unfold Rdiv. ring. }
  rewrite Hd.
  assert (Hlo : exp (- a) <= exp b).
  { destruct (proj1 Hb) as [Hlt|Heq];
      [left; by apply exp_increasing | right; by rewrite Heq]. }
  assert (Hhi : exp b <= exp a).
  { destruct (proj2 Hb) as [Hlt|Heq];
      [left; by apply exp_increasing | right; by rewrite Heq]. }
  assert (Hgap : 0 < exp a - exp (- a)).
  { assert (exp (- a) < exp a) by (apply exp_increasing; lra). lra. }
  split.
  - apply Rmult_le_pos; [lra|]. left. by apply Rinv_0_lt_compat.
  - apply (Rmult_le_reg_r (exp a - exp (- a))); [assumption|].
    unfold Rdiv. rewrite Rmult_assoc, Rinv_l by lra. lra.
Qed.

(** C1: with European exercise the price is the discounted expectation of
    the terminal payoff under the binomial distribution of the number of
    up moves, whenever the inputs are valid and the risk-neutral
    probability is defined and lies in [0, 1]. *)
Theorem european_price_closed_form (spot strike rate volatility maturity : R)
    (steps : Z) (option_type : string) (dividend_yield : R) :
  0 < spot -> 0 < strike -> 0 < maturity -> (1 <= steps)%Z ->
  up_factor volatility maturity steps <> down_factor volatility maturity steps ->
  0 <= risk_neutral_probability rate volatility maturity steps dividend_yield
    <= 1 ->
  price_binomial_option spot strike rate volatility maturity steps option_type
    "european" dividend_yield
  = OK (discounted_expectation spot strike rate maturity option_type
          (lattice_of rate volatility maturity steps dividend_yield)
          (Z.to_nat steps)).
Proof.
  intros Hspot Hstrike Hm Hs Hud Hp.
  set (L := lattice_of rate volatility maturity steps dividend_yield).
  assert (HL : derive rate volatility maturity steps dividend_yield = OK L).
  { rewrite derive_unfold by assumption.
    case_decide; [lra|]. cbv zeta.
    rewrite !bool_decide_eq_true_2 by lra. reflexivity. }
  rewrite (price_is_root_value _ _ _ _ _ _ _ _ _ L) by assumption.
  f_equal. change (bool_decide ("european" = "american")) with false.
  rewrite european_lattice_value. unfold discounted_expectation.
  f_equal.
  - unfold L at 1. simpl discount. by apply discount_pow.
  - unfold weighted_sum. apply sum_eq. intros j Hj.
    rewrite binom_C by assumption. reflexivity.
Qed.

Lemma european_price_closed_form_witness :
  price_binomial_option 100 105 0.05 0.2 2 2 "call" "european" 0
  = OK (discounted_expectation 100 105 0.05 2 "call"
          (lattice_of 0.05 0.2 2 2 0) 2).
Proof.
  assert (Hdt : time_step 2 2 = 1) by (unfold time_step; field).
  destruct (probability_in_range 0.05 0.2 2 2 0) as [Hud Hp];
    [lra | lia | lra | rewrite Hdt, sqrt_1; lra |].
  apply (european_price_closed_form 100 105 0.05 0.2 2 2 "call" 0);
    first [lra | lia | assumption].
Defined.

(** The outcomes of the pricer on inputs that pass validation. *)
Lemma binomial_outcomes (spot strike rate volatility maturity : R) (steps : Z)
    (option_type exercise : string) (dividend_yield : R) :
  0 < spot -> 0 < strike -> 0 < maturity -> (1 <= steps)%Z ->
  let p := risk_neutral_probability rate volatility maturity steps
             dividend_yield in
  let result := price_binomial_option spot strike rate volatility maturity steps
                  option_type exercise dividend_yield in
  (volatility = 0 /\ result = Raise ZeroDivisionError)
  \/ (volatility <> 0 /\ ~ (0 <= p <= 1) /\ result = Raise (ValueError msg_prob))
  \/ (volatility <> 0 /\ 0 <= p <= 1 /\ exists v, result = OK v).
Proof.
  intros Hspot Hstrike Hm Hs p result.
  pose proof (up_eq_down_iff volatility maturity steps Hm Hs) as Hud.
  pose proof (derive_unfold rate volatility maturity steps dividend_yield Hm Hs)
    as Hderive.
  fold p in Hderive. cbv zeta in Hderive.
  destruct (decide (volatility = 0)) as [Hv|Hv].
  - left. split; [assumption|]. unfold result, price_binomial_option, final_payoffs.
    rewrite validate_ok by assumption. simpl. rewrite Hderive.
    case_decide as Hz; [reflexivity|]. apply Hud in Hv. lra.
  - right. destruct (decide (0 <= p <= 1)) as [Hp|Hp].
    + right. split; [assumption|]. split; [assumption|].
      eexists. unfold result. apply price_is_root_value; try assumption.
      rewrite Hderive. case_decide as Hz; [exfalso; apply Hv, Hud; lra|].
      rewrite !bool_decide_eq_true_2 by lra. reflexivity.
    + left. split; [assumption|]. split; [assumption|].
      unfold result, price_binomial_option, final_payoffs.
      rewrite validate_ok by assumption. simpl. rewrite Hderive.
      case_decide as Hz; [exfalso; apply Hv, Hud; lra|].
      destruct (bool_decide (0 <= p)) eqn:Hlo; [|reflexivity].
      destruct (bool_decide (p <= 1)) eqn:Hhi; [|reflexivity].
      apply bool_decide_eq_true in Hlo, Hhi. exfalso. apply Hp. lra.
Qed.

(** C3: with a volatility of zero, inputs that pass validation make the
    pricer raise [ZeroDivisionError] (the up and down factors coincide),
    which is neither of the two error kinds nor a returned value. *)
Theorem zero_volatility_divides_by_zero (spot strike rate maturity : R)
    (steps : Z) (option_type exercise : string) (dividend_yield : R) :
  0 < spot -> 0 < strike -> 0 < maturity -> (1 <= steps)%Z ->
  price_binomial_option spot strike rate 0 maturity steps option_type exercise
    dividend_yield = Raise ZeroDivisionError
  /\ kind_of ZeroDivisionError = OtherError.
Proof.
  intros Hspot Hstrike Hm Hs. split; [|reflexivity].
  destruct (binomial_outcomes spot strike rate 0 maturity steps option_type
              exercise dividend_yield Hspot Hstrike Hm Hs)
    as [[_ Hr]|[[Hv _]|[Hv _]]]; [exact Hr | contradiction | contradiction].
Qed.

Lemma zero_volatility_divides_by_zero_witness :
  price_binomial_option 100 100 0.05 0 1 1 "call" "european" 0
  = Raise ZeroDivisionError
  /\ kind_of ZeroDivisionError = OtherError.
Proof.
  apply (zero_volatility_divides_by_zero 100 100 0.05 1 1 "call" "european" 0);
    first [lra | lia].
Defined.

(** C5: whenever the pricer accepts a parameter set, the American price
    is at least the European price for the same parameters. *)
Theorem american_at_least_european (spot strike rate volatility maturity : R)
    (steps : Z) (option_type : string) (dividend_yield european : R) :
  price_binomial_option spot strike rate volatility maturity steps option_type
    "european" dividend_yield = OK european ->
  exists american,
    price_binomial_option spot strike rate volatility maturity steps option_type
      "american" dividend_yield = OK american
    /\ european <= american.
Proof.
  intros He.
  destruct (price_accepted _ _ _ _ _ _ _ _ _ _ He)
    as (Hspot & Hstrike & Hm & Hs & _ & Hp & HL).
  rewrite (price_is_root_value _ _ _ _ _ _ _ _ _ _ Hspot Hstrike Hm Hs HL) in He.
  injection He as <-.
  eexists. split.
  - apply (price_is_root_value _ _ _ _ _ _ _ _ _ _ Hspot Hstrike Hm Hs HL).
  - change (bool_decide ("european" = "american")) with false.
    change (bool_decide ("american" = "american")) with true.
    apply american_lattice_value_ge; [exact Hp|].
    simpl. left. apply exp_pos.
Qed.

(** A parameter set the pricer accepts: one time step of unit length. *)
Lemma sample_accepted (option_type exercise : string) :
  exists v, price_binomial_option 100 105 0.05 0.2 2 2 option_type exercise 0
            = OK v.
Proof.
  assert (Hdt : time_step 2 2 = 1) by (unfold time_step; field).
  destruct (probability_in_range 0.05 0.2 2 2 0) as [Hud Hp];
    [lra | lia | lra | rewrite Hdt, sqrt_1; lra |].
  destruct (binomial_outcomes 100 105 0.05 0.2 2 2 option_type exercise 0)
    as [[Hv _]|[(_ & Hbad & _)|(_ & _ & Hv)]];
    first [lra | lia | contradiction | exact Hv].
Qed.

Lemma american_at_least_european_witness :
  exists european american,
    price_binomial_option 100 105 0.05 0.2 2 2 "put" "european" 0 = OK european
    /\ price_binomial_option 100 105 0.05 0.2 2 2 "put" "american" 0
       = OK american
    /\ european <= american.
Proof.
  destruct (sample_accepted "put" "european") as [european He].
  destruct (american_at_least_european 100 105 0.05 0.2 2 2 "put" 0 european He)
    as (american & Ha & Hle).
  exists european, american. auto.
Defined.

(** C6, as the code has it: the payoffs list is updated in place and never
    shrinks.  After the passes for [step = n - 1, ..., s] it still has
    [n + 1] entries; entries [0 .. s] are the frontier of step [s], the
    entries above are left over from earlier passes; after the last pass
    the function returns entry 0 of the full-length list. *)
Theorem payoffs_list_keeps_length (spot strike rate volatility maturity : R)
    (steps : Z) (option_type exercise : string) (dividend_yield v : R)
    (s : nat) :
  price_binomial_option spot strike rate volatility maturity steps option_type
    exercise dividend_yield = OK v ->
  (s <= Z.to_nat steps)%nat ->
  let n := Z.to_nat steps in
  let L := lattice_of rate volatility maturity steps dividend_yield in
  let american := bool_decide (exercise = "american") in
  exists payoffs,
    backward_induction spot strike option_type american L
      (terminal_payoffs spot strike option_type L n) (py_range_down_to n s)
    = OK payoffs
    /\ length payoffs = (n + 1)%nat
    /\ (forall i, (i <= s)%nat ->
          payoffs !! i
          = Some (lattice_value spot strike option_type american L n (n - s) i))
    /\ (forall i, (s < i <= n)%nat ->
          payoffs !! i
          = Some (lattice_value spot strike option_type american L n (n - i) i))
    /\ (s = 0%nat ->
        final_payoffs spot strike rate volatility maturity steps option_type
          exercise dividend_yield = OK payoffs
        /\ payoffs !! 0%nat = Some v).
Proof.
  intros Hv Hs n L american.
  destruct (price_accepted _ _ _ _ _ _ _ _ _ _ Hv)
    as (Hspot & Hstrike & Hm & Hsteps & _ & _ & HL).
  destruct (backward_induction_spec spot strike option_type american L n s Hs)
    as (p & Hrun & Hlen & Hp).
  exists p. split; [exact Hrun|]. split; [exact Hlen|].
  split; [|split].
  - intros i Hi. rewrite Hp by lia. do 2 f_equal. lia.
  - intros i Hi. rewrite Hp by lia. do 2 f_equal. lia.
  - intros ->. split.
    + rewrite (final_payoffs_ok _ _ _ _ _ _ _ _ _ L) by assumption.
      exact Hrun.
    + rewrite (price_is_root_value _ _ _ _ _ _ _ _ _ L) in Hv by assumption.
      injection Hv as <-. rewrite Hp by lia.
      replace (n - Nat.max 0 0)%nat with n by lia. reflexivity.
Qed.

Lemma payoffs_list_keeps_length_witness :
  exists v payoffs,
    price_binomial_option 100 105 0.05 0.2 2 2 "call" "european" 0 = OK v
    /\ final_payoffs 100 105 0.05 0.2 2 2 "call" "european" 0 = OK payoffs
    /\ length payoffs = 3%nat
    /\ payoffs !! 0%nat = Some v.
Proof.
  destruct (sample_accepted "call" "european") as [v Hv].
  destruct (payoffs_list_keeps_length 100 105 0.05 0.2 2 2 "call" "european"
              0 v 0 Hv ltac:(lia))
    as (payoffs & _ & Hlen & _ & _ & Hfinal).
  destruct (Hfinal eq_refl) as [Hrun Hroot].
  exists v, payoffs. auto.
Defined.

(** C6 as stated fails: with two steps the list that the function indexes
    at its [return] has three entries, not one. *)
Lemma payoffs_list_not_shrunk :
  exists payoffs,
    final_payoffs 100 105 0.05 0.2 2 2 "call" "european" 0 = OK payoffs
    /\ length payoffs = 3%nat
    /\ length payoffs <> (0 + 1)%nat.
Proof.
  assert (Hdt : time_step 2 2 = 1) by (unfold time_step; field).
  destruct (probability_in_range 0.05 0.2 2 2 0) as [Hud Hp];
    [lra | lia | lra | rewrite Hdt, sqrt_1; lra |].
  assert (HL : derive 0.05 0.2 2 2 0 = OK (lattice_of 0.05 0.2 2 2 0)).
  { rewrite derive_unfold by first [lra | lia].
    case_decide; [lra|]. cbv zeta.
    rewrite !bool_decide_eq_true_2 by lra. reflexivity. }
  rewrite (final_payoffs_ok 100 105 0.05 0.2 2 2 "call" 0 "european"
             (lattice_of 0.05 0.2 2 2 0)) by first [lra | lia | exact HL].
  destruct (backward_induction_spec 100 105 "call"
              (bool_decide ("european" = "american"))
              (lattice_of 0.05 0.2 2 2 0) (Z.to_nat 2) 0 ltac:(lia))
    as (p & Hrun & Hlen & _).
  exists p. split; [exact Hrun|].
  rewrite Hlen. split; [reflexivity | discriminate].
Qed.

End LatticeProperties.

(** ** The Monte Carlo engine *)

Lemma mapM_Result_length {A B : Type} (f : A -> Result B) (l : list A)
    (k : list B) :
  mapM f l = OK k -> length k = length l.
Proof.
  revert k. induction l as [|x l IH]; intros k; simpl.
  - intros Hk. injection Hk as <-. reflexivity.
  - destruct (f x) as [y|e]; simpl; [|discriminate].
    destruct (mapM f l) as [k'|e]; simpl; [|discriminate].
    intros Hk. injection Hk as <-. simpl. f_equal. by apply IH.
Qed.

Section MonteCarloLoops.
Import MonteCarlo.
Context {G : Type} `{RandomGen G}.

Lemma advance_add (a b : nat) (rng : G) :
  advance (a + b) rng = advance b (advance a rng).
Proof. revert rng. induction a as [|a IH]; intros rng; simpl; auto. Qed.

Lemma draws_length (k : nat) (rng : G) : length (draws k rng) = k.
Proof.
  revert rng. induction k as [|k IH]; intros rng; simpl; [reflexivity|].
  destruct (normalvariate rng) as [z rng']. simpl. by rewrite IH.
Qed.

Lemma draws_lookup (k i : nat) (rng : G) :
  (i < k)%nat -> draws k rng !! i = Some (draw rng i).
Proof.
  revert i rng. induction k as [|k IH]; intros i rng Hi; [lia|].
  simpl. unfold draw. destruct i as [|i]; simpl.
  - by destruct (normalvariate rng).
  - destruct (normalvariate rng) as [z rng'] eqn:Hnv. simpl.
    rewrite IH by lia. reflexivity.
Qed.

(** The path loop appends the prices determined by the next draws. *)
Lemma path_loop (drift diffusion : R) (m a : nat) (prices : list R)
    (current : R) (rng : G) :
  fold_left (path_step drift diffusion) (seq a m) (prices, current, rng)
  = (prices ++ gbm_from drift diffusion current (draws m rng),
     fold_left (fun c z => c * exp (drift + diffusion * z)) (draws m rng)
               current,
     advance m rng).
Proof.
  revert a prices current rng.
  induction m as [|m IH]; intros a prices current rng; simpl.
  - by rewrite app_nil_r.
  - destruct (normalvariate rng) as [z rng'] eqn:Hnv. simpl.
    rewrite IH, <- app_assoc. reflexivity.
Qed.

Lemma simulate_path_spec (spot rate volatility dividend_yield maturity : R)
    (steps : Z) (rng : G) :
  0 < maturity -> (1 <= steps)%Z ->
  _simulate_path spot rate volatility dividend_yield maturity steps rng
  = OK (gbm_path spot
          ((rate - dividend_yield - 0.5 * volatility * volatility)
           * (maturity / IZR steps))
          (volatility * sqrt (maturity / IZR steps))
          (draws (Z.to_nat steps) rng),
        advance (Z.to_nat steps) rng).
Proof.
  intros Hm Hs. unfold _simulate_path.
  pose proof (time_step_pos maturity steps Hm Hs) as Hdt.
  unfold Binomial.time_step in Hdt.
  rewrite py_div_ok.
  2:{ intros Hz. apply eq_IZR in Hz. lia. }
  simpl. rewrite py_sqrt_ok by lra. simpl.
  unfold py_range. rewrite path_loop. reflexivity.
Qed.

(** The trial loop evaluates the payoff on the paths of consecutive trials
    and stops at the first payoff that raises. *)
Lemma trial_loop (spot rate volatility dividend_yield maturity : R) (steps : Z)
    (payoff : list R -> Result R) (m a : nat) (acc : list R) (rng : G) :
  0 < maturity -> (1 <= steps)%Z ->
  foldM (trial spot rate volatility dividend_yield maturity steps payoff)
        (acc, rng) (seq a m)
  = (vs ← mapM payoff
            (paths_from spot
               ((rate - dividend_yield - 0.5 * volatility * volatility)
                * (maturity / IZR steps))
               (volatility * sqrt (maturity / IZR steps))
               (Z.to_nat steps) m rng);
     OK (acc ++ vs, advance (m * Z.to_nat steps) rng)).
Proof.
  intros Hm Hs. revert a acc rng.
  induction m as [|m IH]; intros a acc rng; simpl.
  - by rewrite app_nil_r.
  - rewrite simulate_path_spec by assumption. simpl.
    destruct (payoff _) as [v|e]; simpl; [|reflexivity].
    rewrite IH. destruct (mapM payoff _) as [vs|e]; simpl; [|reflexivity].
    rewrite <- app_assoc, advance_add. reflexivity.
Qed.

Lemma paths_from_length (spot drift diffusion : R) (n m : nat) (rng : G) :
  length (paths_from spot drift diffusion n m rng) = m.
Proof.
  revert rng. induction m as [|m IH]; intros rng; simpl; [reflexivity|].
  by rewrite IH.
Qed.

Lemma paths_from_lookup (spot drift diffusion : R) (n m j : nat) (rng : G) :
  (j < m)%nat ->
  paths_from spot drift diffusion n m rng !! j
  = Some (gbm_path spot drift diffusion (draws n (advance (j * n) rng))).
Proof.
  revert j rng. induction m as [|m IH]; intros j rng Hj; [lia|].
  destruct j as [|j]; simpl; [reflexivity|].
  rewrite IH by lia. by rewrite advance_add.
Qed.

(** Consecutive prices of a path differ by the factor of the draw. *)
Lemma gbm_from_step (drift diffusion current : R) (zs : list R) (k : nat)
    (z : R) :
  zs !! k = Some z ->
  exists x,
    (current :: gbm_from drift diffusion current zs) !! k = Some x
    /\ gbm_from drift diffusion current zs !! k
       = Some (x * exp (drift + diffusion * z)).
Proof.
  revert current k. induction zs as [|z0 zs IH]; intros current k Hk;
    [discriminate|].
  destruct k as [|k]; simpl in *.
  - injection Hk as ->. eauto.
  - apply IH. exact Hk.
Qed.

Lemma gbm_from_length (drift diffusion current : R) (zs : list R) :
  length (gbm_from drift diffusion current zs) = length zs.
Proof.
  revert current. induction zs as [|z zs IH]; intros current; simpl;
    [reflexivity|]. by rewrite IH.
Qed.

Lemma advance_succ (k : nat) (rng : G) :
  advance (S k) rng = snd (normalvariate (advance k rng)).
Proof.
  revert rng. induction k as [|k IH]; intros rng; [reflexivity|].
  change (advance (S (S k)) rng) with (advance (S k) (snd (normalvariate rng))).
  by rewrite IH.
Qed.

(** The draws of a trial are the draws of the generator at consecutive
    positions. *)
Lemma draws_seq (n a : nat) (rng : G) :
  draws n (advance a rng) = draw rng <$> seq a n.
Proof.
  revert a. induction n as [|n IH]; intros a; [reflexivity|].
  simpl. destruct (normalvariate (advance a rng)) as [z rng'] eqn:Hnv.
  rewrite <- IH, advance_succ, Hnv. simpl. f_equal.
  unfold draw. by rewrite Hnv.
Qed.

(** The paths of [m] trials depend on the generator only through its first
    [m * n] draws. *)
Lemma paths_from_ext (spot drift diffusion : R) (n m : nat) (rng rng' : G) :
  (forall k, (k < m * n)%nat -> draw rng k = draw rng' k) ->
  paths_from spot drift diffusion n m rng
  = paths_from spot drift diffusion n m rng'.
Proof.
  intros Hdraws. apply list_eq. intros j.
  destruct (decide (j < m)%nat) as [Hj|Hj].
  - rewrite !paths_from_lookup by assumption. rewrite !draws_seq.
    do 2 f_equal. apply list_fmap_ext. intros i k Hk.
    apply lookup_seq in Hk as [-> Hi]. apply Hdraws. nia.
  - rewrite !lookup_ge_None_2; [reflexivity| |];
      rewrite paths_from_length; lia.
Qed.

Lemma paths_from_shape (spot drift diffusion : R) (n m : nat) (rng : G) :
  0 < spot ->
  Forall (fun path => length path = (n + 1)%nat /\ head path = Some spot
                      /\ Forall (fun x => 0 < x) path)
         (paths_from spot drift diffusion n m rng).
Proof.
  intros Hspot.
  assert (Hpos : forall zs current,
             0 < current ->
             Forall (fun x => 0 < x) (gbm_from drift diffusion current zs)).
  { induction zs as [|z zs IHz]; intros current Hc; simpl; constructor.
    - apply Rmult_lt_0_compat; [assumption | apply exp_pos].
    - apply IHz. apply Rmult_lt_0_compat; [assumption | apply exp_pos]. }
  revert rng.
  induction m as [|m IH]; intros rng; simpl; constructor; [|apply IH].
  unfold gbm_path. split; [|split].
  - simpl. rewrite gbm_from_length, draws_length. lia.
  - reflexivity.
  - constructor; [exact Hspot | by apply Hpos].
Qed.

Lemma paths_from_zero (spot drift : R) (n m : nat) (rng : G) :
  paths_from spot drift 0 n m rng
  = replicate m (gbm_path spot drift 0 (replicate n 0)).
Proof.
  assert (Hext : forall zs current,
             gbm_from drift 0 current zs
             = gbm_from drift 0 current (replicate (length zs) 0)).
  { induction zs as [|z zs IHz]; intros current; simpl; [reflexivity|].
    rewrite !Rmult_0_l. f_equal. apply IHz. }
  revert rng. induction m as [|m IH]; intros rng; simpl; [reflexivity|].
  rewrite IH. f_equal. unfold gbm_path. f_equal.
  by rewrite Hext, draws_length.
Qed.

End MonteCarloLoops.

Lemma mapM_replicate {A B : Type} (f : A -> Result B) (m : nat) (x : A) :
  mapM f (replicate (S m) x) = (v ← f x; OK (replicate (S m) v)).
Proof.
  induction m as [|m IH].
  - simpl. by destruct (f x).
  - change (replicate (S (S m)) x) with (x :: replicate (S m) x).
    change (mapM f (x :: replicate (S m) x))
      with (y ← f x; k ← mapM f (replicate (S m) x); mret (y :: k)).
    rewrite IH. by destruct (f x).
Qed.

Lemma py_sum_replicate (m : nat) (v : R) : py_sum (replicate m v) = INR m * v.
Proof.
  unfold py_sum.
  assert (Hacc : forall acc, fold_left Rplus (replicate m v) acc
                             = acc + INR m * v).
  { induction m as [|m IH]; intros acc.
    - simpl. ring.
    - change (fold_left Rplus (replicate (S m) v) acc)
        with (fold_left Rplus (replicate m v) (acc + v)).
      rewrite IH, S_INR. ring. }
  rewrite Hacc. ring.
Qed.

Section MonteCarloProperties.
Import MonteCarlo.
Context {G : Type} `{RandomGen G}.

Lemma mc_validate_ok (spot volatility maturity : R) (steps paths : Z) :
  0 < spot -> 0 <= volatility -> 0 < maturity ->
  (1 <= steps)%Z -> (1 <= paths)%Z ->
  _validate_inputs spot volatility maturity steps paths = OK tt.
Proof.
  intros. unfold _validate_inputs.
  repeat case_decide; try reflexivity; first [lra | lia].
Qed.

(** The price as a function of the paths of the trials. *)
Lemma price_monte_carlo_spec (spot rate volatility maturity : R)
    (steps paths : Z) (payoff : list R -> Result R) (dividend_yield : R)
    (seed : option Z) (os_entropy : G) :
  0 < spot -> 0 <= volatility -> 0 < maturity ->
  (1 <= steps)%Z -> (1 <= paths)%Z ->
  price_monte_carlo_option spot rate volatility maturity steps paths payoff
    dividend_yield seed os_entropy
  = (vs ← mapM payoff
            (paths_from spot
               ((rate - dividend_yield - 0.5 * volatility * volatility)
                * (maturity / IZR steps))
               (volatility * sqrt (maturity / IZR steps))
               (Z.to_nat steps) (Z.to_nat paths) (Random seed os_entropy));
     OK (exp (- rate * maturity) * (py_sum vs / INR (Z.to_nat paths)))).
Proof.
  intros Hspot Hv Hm Hs Hp. unfold price_monte_carlo_option.
  rewrite mc_validate_ok by assumption. simpl.
  unfold py_range. rewrite trial_loop by assumption.
  destruct (mapM payoff _) as [vs|e] eqn:Hvs; simpl; [|reflexivity].
  apply mapM_Result_length in Hvs. rewrite paths_from_length in Hvs.
  rewrite Hvs, py_div_ok; [reflexivity|].
  apply not_0_INR. lia.
Qed.

(** C2: on valid inputs the result is the discounted mean of the payoffs
    of [paths] simulated paths; each path has [steps + 1] entries, starts
    at the spot price, and each step multiplies the price by
    [exp (drift + diffusion * z)], where the draws [z] are the successive
    outputs of the generator, [steps] of them per trial. *)
Theorem monte_carlo_discounted_mean (spot rate volatility maturity : R)
    (steps paths : Z) (payoff : list R -> Result R) (dividend_yield : R)
    (seed : option Z) (os_entropy : G) :
  0 < spot -> 0 <= volatility -> 0 < maturity ->
  (1 <= steps)%Z -> (1 <= paths)%Z ->
  let n := Z.to_nat steps in
  let m := Z.to_nat paths in
  let dt := maturity / IZR steps in
  let drift := (rate - dividend_yield - 0.5 * volatility * volatility) * dt in
  let diffusion := volatility * sqrt dt in
  let rng := Random seed os_entropy in
  exists trial_paths : list (list R),
    length trial_paths = m
    /\ (forall j path, trial_paths !! j = Some path ->
          length path = (n + 1)%nat
          /\ path !! 0%nat = Some spot
          /\ forall k, (k < n)%nat ->
               exists x,
                 path !! k = Some x
                 /\ path !! (k + 1)%nat
                    = Some (x * exp (drift + diffusion
                                             * draw rng (j * n + k))))
    /\ price_monte_carlo_option spot rate volatility maturity steps paths
         payoff dividend_yield seed os_entropy
       = (vs ← mapM payoff trial_paths;
          OK (exp (- rate * maturity) * (py_sum vs / INR m))).
Proof.
  intros Hspot Hv Hm Hs Hp n m dt drift diffusion rng.
  exists (paths_from spot drift diffusion n m rng).
  split; [apply paths_from_length|]. split.
  - intros j path Hj.
    assert (Hjm : (j < m)%nat).
    { apply lookup_lt_Some in Hj. by rewrite paths_from_length in Hj. }
    rewrite paths_from_lookup in Hj by assumption. injection Hj as <-.
    unfold gbm_path. split; [|split].
    + simpl. rewrite gbm_from_length, draws_length. lia.
    + reflexivity.
    + intros k Hk.
      destruct (gbm_from_step drift diffusion spot
                  (draws n (advance (j * n) rng)) k
                  (draw (advance (j * n) rng) k)) as (x & Hx & Hnext).
      { by apply draws_lookup. }
      exists x. split; [exact Hx|].
      replace (k + 1)%nat with (S k) by lia. simpl. rewrite Hnext.
      unfold draw. by rewrite advance_add.
  - by apply price_monte_carlo_spec.
Qed.

(** C8: with an integer seed the generator is built from the seed alone, so
    the draws and the result do not depend on the entropy of the system, for
    any input.  On valid inputs the result is pinned down by the seed: trial
    [j] is priced on the path whose steps use the draws
    [j * steps, ..., j * steps + steps - 1] of [Random(seed)], and the
    result is the discounted mean of the payoffs of these [paths] paths.
    The result is a function of the first [paths * steps] draws: any
    generator that agrees with [Random(seed)] on them gives the same
    result.  (Floats idealised as reals.) *)
Theorem seeded_price_reproducible (spot rate volatility maturity : R)
    (steps paths : Z) (payoff : list R -> Result R) (dividend_yield : R)
    (seed : Z) :
  (forall os_entropy1 os_entropy2 : G,
     (forall k, draw (Random (Some seed) os_entropy1) k
                = draw (Random (Some seed) os_entropy2) k)
     /\ price_monte_carlo_option spot rate volatility maturity steps paths
          payoff dividend_yield (Some seed) os_entropy1
        = price_monte_carlo_option spot rate volatility maturity steps paths
            payoff dividend_yield (Some seed) os_entropy2)
  /\ (0 < spot -> 0 <= volatility -> 0 < maturity ->
      (1 <= steps)%Z -> (1 <= paths)%Z ->
      let n := Z.to_nat steps in
      let m := Z.to_nat paths in
      let dt := maturity / IZR steps in
      let drift :=
        (rate - dividend_yield - 0.5 * volatility * volatility) * dt in
      let diffusion := volatility * sqrt dt in
      exists trial_paths : list (list R),
        length trial_paths = m
        /\ (forall j, (j < m)%nat ->
              trial_paths !! j
              = Some (gbm_path spot drift diffusion
                        (draw (Random_seeded seed) <$> seq (j * n) n)))
        /\ (forall os_entropy : G,
              price_monte_carlo_option spot rate volatility maturity steps
                paths payoff dividend_yield (Some seed) os_entropy
              = (vs ← mapM payoff trial_paths;
                 OK (exp (- rate * maturity) * (py_sum vs / INR m))))
        /\ (forall (seed' : option Z) (os_entropy os_entropy' : G),
              (forall k, (k < m * n)%nat ->
                 draw (Random seed' os_entropy') k
                 = draw (Random_seeded seed) k) ->
              price_monte_carlo_option spot rate volatility maturity steps
                paths payoff dividend_yield seed' os_entropy'
              = price_monte_carlo_option spot rate volatility maturity steps
                  paths payoff dividend_yield (Some seed) os_entropy)).
Proof.
  split; [intros os_entropy1 os_entropy2; split; reflexivity|].
  intros Hspot Hv Hm Hs Hp n m dt drift diffusion.
  exists (paths_from spot drift diffusion n m (Random_seeded seed)).
  split; [apply paths_from_length|]. split; [|split].
  - intros j Hj. rewrite paths_from_lookup by assumption.
    by rewrite draws_seq.
  - intros os_entropy. by apply price_monte_carlo_spec.
  - intros seed' os_entropy os_entropy' Hdraws.
    rewrite !price_monte_carlo_spec by assumption.
    fold n m dt drift diffusion.
    by rewrite (paths_from_ext spot drift diffusion n m
                  (Random seed' os_entropy')
                  (Random (Some seed) os_entropy)).
Qed.

Lemma gbm_path_zero_diffusion (spot drift : R) (zs : list R) (k : nat) :
  (k <= length zs)%nat ->
  gbm_path spot drift 0 zs !! k = Some (spot * exp (INR k * drift)).
Proof.
  unfold gbm_path. revert spot k.
  induction zs as [|z zs IH]; intros spot k Hk; simpl in Hk.
  - assert (k = 0%nat) as -> by lia. simpl.
    rewrite Rmult_0_l, exp_0. f_equal. ring.
  - destruct k as [|k].
    + simpl. rewrite Rmult_0_l, exp_0. f_equal. ring.
    + change ((spot :: gbm_from drift 0 spot (z :: zs)) !! S k)
        with ((spot * exp (drift + 0 * z)
               :: gbm_from drift 0 (spot * exp (drift + 0 * z)) zs) !! k).
      rewrite IH by lia. f_equal. rewrite S_INR, Rmult_assoc, <- exp_plus.
      do 2 f_equal. ring.
Qed.

(** C9: with a volatility of zero there is one forward path,
    [path[k] = S0 * exp((r - q) * k * T / N)] for [k = 0, ..., N], and every
    call of [_simulate_path] returns it, whatever the generator draws (the
    generator is still advanced by [N] draws).  Every trial of the pricer
    is priced on this path, so the result is the discounted payoff of the
    forward path, or the exception of the payoff on it, for all seeds and
    all generator states.  (Floats idealised as reals.) *)
Theorem zero_volatility_is_deterministic (spot rate maturity : R)
    (steps paths : Z) (payoff : list R -> Result R) (dividend_yield : R) :
  0 < spot -> 0 < maturity -> (1 <= steps)%Z -> (1 <= paths)%Z ->
  exists forward_path : list R,
    length forward_path = (Z.to_nat steps + 1)%nat
    /\ (forall k, (k <= Z.to_nat steps)%nat ->
          forward_path !! k
          = Some (spot * exp ((rate - dividend_yield) * INR k * maturity
                              / IZR steps)))
    /\ (forall rng : G,
          _simulate_path spot rate 0 dividend_yield maturity steps rng
          = OK (forward_path, advance (Z.to_nat steps) rng))
    /\ (forall (seed : option Z) (os_entropy : G),
          price_monte_carlo_option spot rate 0 maturity steps paths payoff
            dividend_yield seed os_entropy
          = (vs ← mapM payoff (replicate (Z.to_nat paths) forward_path);
             OK (exp (- rate * maturity) * (py_sum vs / INR (Z.to_nat paths)))))
    /\ (forall (seed : option Z) (os_entropy : G),
          price_monte_carlo_option spot rate 0 maturity steps paths payoff
            dividend_yield seed os_entropy
          = (v ← payoff forward_path; OK (exp (- rate * maturity) * v)))
    /\ (forall (seed1 seed2 : option Z) (os_entropy1 os_entropy2 : G),
          price_monte_carlo_option spot rate 0 maturity steps paths payoff
            dividend_yield seed1 os_entropy1
          = price_monte_carlo_option spot rate 0 maturity steps paths payoff
              dividend_yield seed2 os_entropy2).
Proof.
  intros Hspot Hm Hs Hp.
  set (drift := (rate - dividend_yield - 0.5 * 0 * 0) * (maturity / IZR steps)).
  set (forward_path := gbm_path spot drift 0 (replicate (Z.to_nat steps) 0)).
  assert (Hmean : forall (seed : option Z) (os_entropy : G),
             price_monte_carlo_option spot rate 0 maturity steps paths payoff
               dividend_yield seed os_entropy
             = (vs ← mapM payoff (replicate (Z.to_nat paths) forward_path);
                OK (exp (- rate * maturity)
                    * (py_sum vs / INR (Z.to_nat paths))))).
  { intros seed os_entropy.
    rewrite price_monte_carlo_spec by first [assumption | lra].
    rewrite Rmult_0_l. fold drift. by rewrite paths_from_zero. }
  assert (Hone : forall (seed : option Z) (os_entropy : G),
             price_monte_carlo_option spot rate 0 maturity steps paths payoff
               dividend_yield seed os_entropy
             = (v ← payoff forward_path; OK (exp (- rate * maturity) * v))).
  { intros seed os_entropy. rewrite Hmean.
    destruct (Z.to_nat paths) as [|m] eqn:Hpaths; [lia|].
    rewrite mapM_replicate. destruct (payoff forward_path) as [v|e];
      [|reflexivity].
    change (OK (exp (- rate * maturity)
                * (py_sum (replicate (S m) v) / INR (S m)))
            = OK (exp (- rate * maturity) * v)).
    rewrite py_sum_replicate. do 2 f_equal. field.
    apply not_0_INR. lia. }
  exists forward_path. split; [|split; [|split; [|split; [|split]]]].
  - unfold forward_path, gbm_path. simpl.
    rewrite gbm_from_length, length_replicate. lia.
  - intros k Hk. unfold forward_path.
    rewrite gbm_path_zero_diffusion by (by rewrite length_replicate).
    unfold drift. do 3 f_equal. field. intros Hz. apply eq_IZR in Hz. lia.
  - intros rng. rewrite simulate_path_spec by assumption.
    rewrite Rmult_0_l. fold drift. do 2 f_equal.
    pose proof (paths_from_zero spot drift (Z.to_nat steps) 1 rng) as Hpath.
    exact (f_equal (fun l => default [] (head l)) Hpath).
  - exact Hmean.
  - exact Hone.
  - intros seed1 seed2 e1 e2. by rewrite !Hone.
Qed.

End MonteCarloProperties.

Lemma monte_carlo_discounted_mean_witness :
  exists trial_paths : list (list R),
    length trial_paths = 3%nat
    /\ (forall j path, trial_paths !! j = Some path ->
          length path = 3%nat
          /\ path !! 0%nat = Some 100
          /\ forall k, (k < 2)%nat ->
               exists x,
                 path !! k = Some x
                 /\ path !! (k + 1)%nat
                    = Some (x * exp ((0.05 - 0 - 0.5 * 0.2 * 0.2) * (1 / 2)
                                     + 0.2 * sqrt (1 / 2)
                                       * MonteCarlo.draw
                                           (MonteCarlo.Random (Some 42%Z) 0%Z)
                                           (j * 2 + k))))
    /\ MonteCarlo.price_monte_carlo_option 100 0.05 0.2 1 2 3
         (fun path => py_getitem path 2) 0 (Some 42%Z) 0%Z
       = (vs ← mapM (fun path => py_getitem path 2) trial_paths;
          OK (exp (- (0.05) * 1) * (py_sum vs / 3))).
Proof.
  destruct (monte_carlo_discounted_mean (G := Z) 100 0.05 0.2 1 2 3
              (fun path => py_getitem path 2) 0 (Some 42%Z) 0%Z)
    as (trial_paths & Hlen & Hpaths & Hprice); try lra; try lia.
  exists trial_paths. split; [exact Hlen|]. split; [exact Hpaths|].
  rewrite Hprice. replace (INR (Z.to_nat 3)) with 3 by (simpl; lra).
  reflexivity.
Defined.

Lemma seeded_price_reproducible_witness :
  exists trial_paths : list (list R),
    length trial_paths = 3%nat
    /\ (forall j, (j < 3)%nat ->
          trial_paths !! j
          = Some (MonteCarlo.gbm_path 100
                    ((0.05 - 0 - 0.5 * 0.2 * 0.2) * (1 / 2))
                    (0.2 * sqrt (1 / 2))
                    (MonteCarlo.draw (Random_seeded 42%Z) <$> seq (j * 2) 2)))
    /\ (forall os_entropy : Z,
          MonteCarlo.price_monte_carlo_option 100 0.05 0.2 1 2 3
            (fun path => py_getitem path 2) 0 (Some 42%Z) os_entropy
          = (vs ← mapM (fun path => py_getitem path 2) trial_paths;
             OK (exp (- (0.05) * 1) * (py_sum vs / 3)))).
Proof.
  destruct (seeded_price_reproducible (G := Z) 100 0.05 0.2 1 2 3
              (fun path => py_getitem path 2) 0 42%Z) as [_ Hpinned].
  destruct Hpinned as (trial_paths & Hlen & Hpaths & Hprice & _);
    try lra; try lia.
  exists trial_paths. split; [exact Hlen|]. split; [exact Hpaths|].
  intros os_entropy. rewrite Hprice.
  replace (INR (Z.to_nat 3)) with 3 by (simpl; lra). reflexivity.
Defined.

Lemma zero_volatility_is_deterministic_witness :
  exists forward_path : list R,
    length forward_path = 3%nat
    /\ (forall k, (k <= 2)%nat ->
          forward_path !! k = Some (100 * exp ((0.05 - 0) * INR k * 1 / 2)))
    /\ (forall rng : Z,
          MonteCarlo._simulate_path 100 0.05 0 0 1 2 rng
          = OK (forward_path, MonteCarlo.advance 2 rng))
    /\ (forall (seed : option Z) (os_entropy : Z),
          MonteCarlo.price_monte_carlo_option 100 0.05 0 1 2 3
            (fun path => py_getitem path 2) 0 seed os_entropy
          = (v ← py_getitem forward_path 2; OK (exp (- (0.05) * 1) * v))).
Proof.
  destruct (zero_volatility_is_deterministic (G := Z) 100 0.05 1 2 3
              (fun path => py_getitem path 2) 0)
    as (forward_path & Hlen & Hk & Hsim & _ & Hone & _); try lra; try lia.
  exists forward_path. split; [exact Hlen|]. split; [exact Hk|].
  split; [exact Hsim | exact Hone].
Defined.

(** ** Payoff expressions *)

Section PayoffNamespace.

Context `{Interpreter}.
Import Payoff.

Lemma last_price_last (path : list R) (x : R) :
  last path = Some x -> last_price path = OK x.
Proof.
  intros Hx. unfold last_price. destruct path as [|y path]; [discriminate|].
  simpl length. apply py_getitem_Some.
  rewrite last_lookup in Hx. exact Hx.
Qed.

(** The standard bindings of a non-empty path. *)
Lemma standard_vars_ok (path : list R) (first final : R) :
  head path = Some first -> last path = Some final ->
  standard_vars path
  = OK (<["step" := VInt (Z.of_nat (length path) - 1)]>
          (<["spot" := VFloat first]>
             (<["st" := VFloat final]>
                (<["s" := VFloat final]> (<["path" := VPath]> ∅))))).
Proof.
  intros Hfirst Hfinal. unfold standard_vars.
  rewrite (last_price_last _ _ Hfinal). simpl.
  rewrite (py_getitem_Some path 0 first); [reflexivity|].
  by destruct path.
Qed.

(** An empty path has no terminal price: the payoff raises [IndexError]
    before the expression is evaluated. *)
Lemma payoff_empty_path (code : expr) (extra_context : gmap string R) :
  payoff code extra_context [] = (Raise IndexError, []).
Proof. reflexivity. Qed.

Lemma payoff_unfold (code : expr) (extra_context : gmap string R)
    (path : list R) (locals : gmap string value) :
  local_vars extra_context path = OK locals ->
  payoff code extra_context path
  = match py_eval safe_globals locals code path with
    | (OK v, path') => (py_float v, path')
    | (Raise e, path') => (Raise e, path')
    end.
Proof. intros Hl. unfold payoff. by rewrite Hl. Qed.

Lemma math_dir_public (x : string) :
  x ∈ math_dir <-> x ∈ dir_math /\ is_private x = false.
Proof. unfold math_dir. rewrite list_elem_of_filter. tauto. Qed.

Lemma safe_globals_builtins : safe_globals !! "__builtins__" = Some VDict.
Proof. unfold safe_globals. apply lookup_insert_eq. Qed.

Lemma safe_globals_max : safe_globals !! "max" = Some (VBuiltin "max").
Proof.
  unfold safe_globals. rewrite lookup_insert_ne by done.
  rewrite lookup_insert_ne by done. apply lookup_insert_eq.
Qed.

(** C10: the keys of [extra_context] are bound after the five standard
    names and replace them: a key of [extra_context] always evaluates to its
    [extra_context] value, also when it is named [path], [s], [st], [spot]
    or [step]; every other name keeps its standard binding, so that
    [s = st = path[-1]], [spot = path[0]] and [step = len(path) - 1] hold
    when [extra_context] has none of the five names. *)
Theorem extra_context_shadows (extra_context : gmap string R) (path : list R)
    (first final : R) :
  head path = Some first -> last path = Some final ->
  exists locals,
    local_vars extra_context path = OK locals
    /\ (forall k v, extra_context !! k = Some v -> locals !! k = Some (VFloat v))
    /\ (forall k, extra_context !! k = None ->
          locals !! k
          = (<["step" := VInt (Z.of_nat (length path) - 1)]>
               (<["spot" := VFloat first]>
                  (<["st" := VFloat final]>
                     (<["s" := VFloat final]>
                        (<["path" := VPath]> (∅ : gmap string value)))))) !! k)
    /\ ((forall k, k ∈ ["path"; "s"; "st"; "spot"; "step"] ->
          extra_context !! k = None) ->
        locals !! "path" = Some VPath
        /\ locals !! "s" = Some (VFloat final)
        /\ locals !! "st" = Some (VFloat final)
        /\ locals !! "spot" = Some (VFloat first)
        /\ locals !! "step" = Some (VInt (Z.of_nat (length path) - 1)))
    /\ (forall expression f,
          build_expression_payoff expression (Some extra_context) = OK f ->
          exists code,
            py_compile expression = OK code
            /\ f path = match py_eval safe_globals locals code path with
                        | (OK v, path') => (py_float v, path')
                        | (Raise e, path') => (Raise e, path')
                        end).
Proof.
  intros Hfirst Hfinal. unfold local_vars.
  rewrite (standard_vars_ok path first final Hfirst Hfinal). simpl.
  eexists. split; [reflexivity|].
  assert (Hshadow : forall k v (std : gmap string value),
             extra_context !! k = Some v ->
             ((VFloat <$> extra_context) ∪ std) !! k = Some (VFloat v)).
  { intros k v std Hk. apply lookup_union_Some_l.
    by rewrite lookup_fmap, Hk. }
  assert (Hkeep : forall k (std : gmap string value),
             extra_context !! k = None ->
             ((VFloat <$> extra_context) ∪ std) !! k = std !! k).
  { intros k std Hk. apply lookup_union_r. by rewrite lookup_fmap, Hk. }
  split; [intros k v; apply Hshadow|].
  split; [intros k; apply Hkeep|].
  split.
  - intros Hfree.
    repeat split; rewrite Hkeep by (apply Hfree; set_solver); reflexivity.
  - intros expression f Hf. unfold build_expression_payoff in Hf.
    destruct (py_compile expression) as [code|e]; [|discriminate].
    simpl in Hf. injection Hf as <-. exists code. split; [reflexivity|].
    apply payoff_unfold. unfold local_vars.
    by rewrite (standard_vars_ok path first final Hfirst Hfinal).
Qed.

End PayoffNamespace.

Lemma extra_context_shadows_witness :
  exists f,
    Payoff.build_expression_payoff "s" (Some {["s" := 7]}) = OK f
    /\ f [100; 110] = (OK 7, [100; 110]).
Proof.
  destruct (extra_context_shadows {["s" := 7]} [100; 110] 100 110 eq_refl eq_refl)
    as (locals & _ & Hshadow & _ & _ & Hbuild).
  eexists. split; [reflexivity|].
  destruct (Hbuild "s" _ eq_refl) as (code & Hcode & ->).
  injection Hcode as <-. simpl.
  unfold Payoff.lift, Payoff.lookup_name.
  rewrite (Hshadow "s" 7) by apply lookup_singleton_eq. reflexivity.
Defined.

Section PayoffEvaluation.

Context `{Interpreter}.
Import Payoff.

Lemma eval_bind_raise {A B : Type} (m : Eval A) (k : A -> Eval B) (path path' : list R)
    (e : exn) :
  m path = (Raise e, path') -> (m ≫= k) path = (Raise e, path').
Proof. intros Hm. unfold mbind, Eval_bind. by rewrite Hm. Qed.

(** Evaluation starts with the leftmost name: if that name is bound neither
    in the locals nor in the globals, the expression raises [NameError]
    and the path list is untouched. *)
Lemma leftmost_unbound (globals locals : gmap string value) (code : expr)
    (x : string) (path : list R) :
  leftmost code = EName x ->
  locals !! x = None -> globals !! x = None ->
  py_eval globals locals code path = (Raise (NameError x), path).
Proof.
  intros Hleft Hl Hg.
  induction code as [z|y|a IH|op a IH b _|a IH b _|a IH b _|f IH args|a IH name
                    |a IH i _]; simpl in Hleft; try discriminate.
  - injection Hleft as ->. simpl. unfold lift, lookup_name. by rewrite Hl, Hg.
  - simpl. apply eval_bind_raise. auto.
  - simpl. apply eval_bind_raise. auto.
  - simpl. apply eval_bind_raise. auto.
  - simpl. apply eval_bind_raise. auto.
  - simpl. apply eval_bind_raise. auto.
  - simpl. apply eval_bind_raise. auto.
  - simpl. apply eval_bind_raise. auto.
Qed.

Lemma py_float_not_a_number (v : value) :
  num v = None -> (forall name, v <> VNonFinite name) ->
  py_float v = Raise TypeError.
Proof.
  intros Hnum Hfin. destruct v; simpl in *; try discriminate; try reflexivity.
  by destruct (Hfin name).
Qed.

End PayoffEvaluation.

Section Namespace.

Context `{Interpreter}.
Import Payoff.

(** The names the lookup of [eval] resolves: the keys of [extra_context],
    the five standard names, the public names of [math], [max], [min], and
    [__builtins__] itself. *)
Lemma resolvable_names (extra_context : gmap string R) (path : list R)
    (locals : gmap string value) (x : string) :
  local_vars extra_context path = OK locals ->
  (exists v, lookup_name safe_globals locals x = OK v)
  <-> x ∈ dom extra_context
      \/ x ∈ ["path"; "s"; "st"; "spot"; "step"]
      \/ x ∈ math_dir
      \/ x ∈ ["max"; "min"; "__builtins__"].
Proof.
  intros Hlocals. unfold local_vars, standard_vars in Hlocals.
  destruct (last_price path) as [final|]; [|discriminate].
  destruct (py_getitem path 0) as [first|]; [|discriminate].
  simpl in Hlocals. injection Hlocals as <-.
  set (locals := (VFloat <$> extra_context)
                 ∪ <["step":=VInt (Z.of_nat (length path) - 1)]>
                     (<["spot":=VFloat first]>
                        (<["st":=VFloat final]>
                           (<["s":=VFloat final]>
                              (<["path":=VPath]> (∅ : gmap string value)))))).
  assert (Hsome : (exists v, lookup_name safe_globals locals x = OK v)
                  <-> x ∈ dom locals \/ x ∈ dom safe_globals).
  { unfold lookup_name. rewrite !elem_of_dom. split.
    - intros [v Hv].
      destruct (locals !! x) eqn:Hl; [left; eauto|].
      destruct (safe_globals !! x) eqn:Hg; [right; eauto | discriminate].
    - intros [[v Hv]|[v Hv]].
      + rewrite Hv. eauto.
      + destruct (locals !! x); [eauto|]. rewrite Hv. eauto. }
  rewrite Hsome. unfold locals.
  unfold safe_globals, math_namespace.
  rewrite dom_union_L, dom_fmap_L, !dom_insert_L, dom_empty_L.
  rewrite dom_list_to_map_L, <- list_fmap_compose.
  change (fst ∘ (fun name => (name, math_attr name))) with (@Datatypes.id string).
  generalize math_dir. intros names.
  rewrite !elem_of_union, elem_of_list_to_set, !elem_of_singleton.
  rewrite !elem_of_cons, !elem_of_nil, elem_of_empty, list_fmap_id.
  tauto.
Qed.

Lemma lookup_name_cases (globals locals : gmap string value) (x : string) :
  (exists v, lookup_name globals locals x = OK v)
  \/ lookup_name globals locals x = Raise (NameError x).
Proof.
  unfold lookup_name. destruct (locals !! x); [eauto|].
  destruct (globals !! x); eauto.
Qed.

(** X13: An expression that is a single name: on a non-empty path the payoff
    resolves it if and only if it is a key of [extra_context], one of the
    five standard names, a public name of the [math] module of the running
    interpreter, [max], [min] or [__builtins__], and then returns [float]
    of its value; for every other name that compiles the payoff raises
    [NameError] and leaves the path alone.  The statement holds for every
    content of [dir(math)]. *)
Theorem compiled_name_resolution (expression x : string)
    (extra_context : option (gmap string R)) (path : list R)
    (first final : R) :
  py_compile expression = OK (EName x) ->
  head path = Some first -> last path = Some final ->
  let resolvable :=
    x ∈ dom (default (∅ : gmap string R) extra_context)
    \/ x ∈ ["path"; "s"; "st"; "spot"; "step"]
    \/ x ∈ math_dir
    \/ x ∈ ["max"; "min"; "__builtins__"] in
  exists f locals,
    build_expression_payoff expression extra_context = OK f
    /\ local_vars (default ∅ extra_context) path = OK locals
    /\ (resolvable ->
        exists v, lookup_name safe_globals locals x = OK v
                  /\ f path = (py_float v, path))
    /\ (~ resolvable -> f path = (Raise (NameError x), path)).
Proof.
  intros Hcode Hfirst Hfinal resolvable.
  unfold build_expression_payoff. rewrite Hcode. simpl.
  assert (Hlocals : exists locals,
             local_vars (default ∅ extra_context) path = OK locals).
  { unfold local_vars.
    rewrite (standard_vars_ok path first final Hfirst Hfinal). simpl. eauto. }
  destruct Hlocals as [locals Hlocals].
  eexists _, locals. split; [reflexivity|]. split; [exact Hlocals|].
  rewrite (payoff_unfold _ _ _ _ Hlocals). simpl. unfold lift.
  pose proof (resolvable_names _ _ _ x Hlocals) as Hiff.
  fold resolvable in Hiff. split.
  - intros Hres. apply Hiff in Hres as [v Hv]. exists v. by rewrite Hv.
  - intros Hno.
    destruct (lookup_name_cases safe_globals locals x) as [Hv| ->];
      [|reflexivity].
    by apply Hiff in Hv.
Qed.

(** C4: the evaluator follows attributes of the objects it is given.  From
    the path list it reaches the class [list], its base [object] and the
    bound method [object.__subclasses__], the registry of the classes of
    the host process; and [__builtins__] is itself a bound name. *)
Theorem evaluator_reaches_host_classes :
  (exists code locals,
     py_compile "path.__class__.__base__.__subclasses__" = OK code
     /\ local_vars ∅ [100; 110] = OK locals
     /\ py_eval safe_globals locals code [100; 110]
        = (OK (VClassMethod "object" "__subclasses__"), [100; 110]))
  /\ (exists f,
        build_expression_payoff "__builtins__" None = OK f
        /\ f [100; 110] = (Raise TypeError, [100; 110]))
  /\ "__builtins__" ∉ math_dir ++ ["max"; "min"; "path"; "s"; "st"; "spot"; "step"].
Proof.
  split; [|split].
  - eexists _, _. split; [reflexivity|]. split; reflexivity.
  - eexists. split; [reflexivity|].
    erewrite payoff_unfold by (vm_compute; reflexivity). simpl.
    unfold lift, lookup_name.
    change (_ !! "__builtins__") with (@None value) at 1.
    by rewrite safe_globals_builtins.
  - rewrite elem_of_app, math_dir_public. intros [[_ Hpub]|Hstd].
    + discriminate Hpub.
    + revert Hstd. apply (proj1 (bool_decide_eq_false _)). reflexivity.
Qed.

End Namespace.

Lemma compiled_name_resolution_witness :
  exists f,
    Payoff.build_expression_payoff "len" None = OK f
    /\ f [100; 110] = (Raise (NameError "len"), [100; 110]).
Proof.
  destruct (compiled_name_resolution "len" "len" None [100; 110] 100 110)
    as (f & locals & Hf & _ & _ & Hno); [reflexivity..|].
  exists f. split; [exact Hf|]. apply Hno.
  intros [Hin|[Hin|[Hin|Hin]]]; revert Hin;
    apply (proj1 (bool_decide_eq_false _)); reflexivity.
Defined.

(** Without a seed the result is a function of the entropy the generator
    starts from: two runs on the same arguments can differ. *)
Lemma unseeded_price_depends_on_entropy :
  MonteCarlo.price_monte_carlo_option 1 0 1 1 1 1
    (fun path => py_getitem path 1) 0 None 0%Z
  <> MonteCarlo.price_monte_carlo_option 1 0 1 1 1 1
       (fun path => py_getitem path 1) 0 None 8%Z.
Proof.
  rewrite !price_monte_carlo_spec by first [lra | lia].
  change (Z.to_nat 1) with 1%nat. simpl.
  intros Heq. injection Heq as Heq.
  assert (Hone : 1 / 1 = 1) by field.
  rewrite !Hone, sqrt_1 in Heq.
  assert (Hpos : 0 < exp (- 0 * 1)) by apply exp_pos.
  apply Rmult_eq_reg_l in Heq; [|lra].
  unfold py_sum in Heq. simpl in Heq.
  assert (Hexp : exp ((0 - 0 - 0.5 * 1 * 1) * 1 + 1 * 1 * (IZR (0 - 8) / 8))
                 = exp ((0 - 0 - 0.5 * 1 * 1) * 1 + 1 * 1 * (IZR (8 - 8) / 8))).
  { lra. }
  apply exp_inv in Hexp.
  change (0 - 8)%Z with (-8)%Z in Hexp. change (8 - 8)%Z with 0%Z in Hexp. lra.
Qed.

(** * Further properties of the binomial pricer *)

Section LatticeBounds.
Import Binomial.

Lemma py_max_ge_r (a b : R) : b <= py_max a b.
Proof. unfold py_max. case_decide; lra. Qed.

Lemma intrinsic_nonneg (spot strike : R) (option_type : string) (L : lattice)
    (step i : nat) :
  0 <= intrinsic spot strike option_type L step i.
Proof. unfold intrinsic. case_bool_decide; apply py_max_ge_r. Qed.

Lemma lattice_value_nonneg (spot strike : R) (option_type : string)
    (american : bool) (L : lattice) (n k i : nat) :
  0 <= prob_up L <= 1 -> 0 <= discount L ->
  0 <= lattice_value spot strike option_type american L n k i.
Proof.
  intros Hp Hd. revert i. induction k as [|k IH]; intros i.
  - apply intrinsic_nonneg.
  - simpl. unfold node_value.
    pose proof (IH i) as Hlo. pose proof (IH (i + 1)%nat) as Hhi.
    assert (Hc : 0 <= discount L
                      * (prob_up L
                         * lattice_value spot strike option_type american L n k
                             (i + 1)
                         + (1 - prob_up L)
                           * lattice_value spot strike option_type american L n
                               k i)).
    { apply Rmult_le_pos; [assumption|].
      apply Rplus_le_le_0_compat; apply Rmult_le_pos; lra. }
    destruct american; [|exact Hc].
    eapply Rle_trans; [exact Hc | apply py_max_ge_l].
Qed.

(** X1: A price that is returned is never negative. *)
Theorem binomial_price_nonneg (spot strike rate volatility maturity : R)
    (steps : Z) (option_type exercise : string) (dividend_yield v : R) :
  price_binomial_option spot strike rate volatility maturity steps option_type
    exercise dividend_yield = OK v ->
  0 <= v.
Proof.
  intros Hv.
  destruct (price_accepted _ _ _ _ _ _ _ _ _ _ Hv)
    as (Hspot & Hstrike & Hm & Hs & _ & Hp & HL).
  rewrite (price_is_root_value _ _ _ _ _ _ _ _ _ _ Hspot Hstrike Hm Hs HL) in Hv.
  injection Hv as <-.
  apply lattice_value_nonneg; [exact Hp|]. simpl. left. apply exp_pos.
Qed.

Lemma binomial_price_nonneg_witness :
  exists v,
    price_binomial_option 100 105 0.05 0.2 2 2 "put" "american" 0 = OK v
    /\ 0 <= v.
Proof.
  destruct (sample_accepted "put" "american") as [v Hv].
  exists v. split; [exact Hv|].
  exact (binomial_price_nonneg 100 105 0.05 0.2 2 2 "put" "american" 0 v Hv).
Defined.

(** X2: An American price is at least the value of exercising at once:
    [max(spot - strike, 0)] for a call, [max(strike - spot, 0)] otherwise. *)
Theorem american_price_at_least_intrinsic
    (spot strike rate volatility maturity : R) (steps : Z)
    (option_type : string) (dividend_yield v : R) :
  price_binomial_option spot strike rate volatility maturity steps option_type
    "american" dividend_yield = OK v ->
  (if bool_decide (option_type = "call")
   then py_max (spot - strike) 0
   else py_max (strike - spot) 0) <= v.
Proof.
  intros Hv.
  destruct (price_accepted _ _ _ _ _ _ _ _ _ _ Hv)
    as (Hspot & Hstrike & Hm & Hs & _ & Hp & HL).
  rewrite (price_is_root_value _ _ _ _ _ _ _ _ _ _ Hspot Hstrike Hm Hs HL) in Hv.
  injection Hv as <-.
  change (bool_decide ("american" = "american")) with true.
  destruct (Z.to_nat steps) as [|n] eqn:Hn; [lia|].
  simpl lattice_value. unfold node_value.
  eapply Rle_trans; [|apply py_max_ge_r].
  unfold intrinsic. rewrite Nat.sub_diag. simpl pow.
  right. case_bool_decide; f_equal; ring.
Qed.

Lemma american_price_at_least_intrinsic_witness :
  exists v,
    price_binomial_option 100 105 0.05 0.2 2 2 "put" "american" 0 = OK v
    /\ py_max (105 - 100) 0 <= v.
Proof.
  destruct (sample_accepted "put" "american") as [v Hv].
  exists v. split; [exact Hv|].
  exact (american_price_at_least_intrinsic 100 105 0.05 0.2 2 2 "put" 0 v Hv).
Defined.

(** X3: The two string arguments are compared with one literal each: any
    [exercise] other than ["american"] prices a European option, and any
    [option_type] other than ["call"] prices a put. *)
Theorem unknown_style_strings (spot strike rate volatility maturity : R)
    (steps : Z) (option_type exercise : string) (dividend_yield : R) :
  (exercise <> "american" ->
   price_binomial_option spot strike rate volatility maturity steps option_type
     exercise dividend_yield
   = price_binomial_option spot strike rate volatility maturity steps
       option_type "european" dividend_yield)
  /\ (option_type <> "call" ->
      price_binomial_option spot strike rate volatility maturity steps
        option_type exercise dividend_yield
      = price_binomial_option spot strike rate volatility maturity steps "put"
          exercise dividend_yield).
Proof.
  split.
  - intros Hex. unfold price_binomial_option, final_payoffs.
    rewrite (bool_decide_eq_false_2 (exercise = "american")) by assumption.
    reflexivity.
  - intros Hty.
    unfold price_binomial_option, final_payoffs, backward_induction,
      backward_step, update_node, terminal_payoffs, intrinsic.
    rewrite (bool_decide_eq_false_2 (option_type = "call")) by assumption.
    reflexivity.
Qed.

Lemma unknown_style_strings_witness :
  price_binomial_option 100 105 0.05 0.2 2 2 "call" "American" 0
  = price_binomial_option 100 105 0.05 0.2 2 2 "call" "european" 0
  /\ price_binomial_option 100 105 0.05 0.2 2 2 "Call" "american" 0
     = price_binomial_option 100 105 0.05 0.2 2 2 "put" "american" 0.
Proof.
  split.
  - apply (unknown_style_strings 100 105 0.05 0.2 2 2 "call" "American" 0).
    discriminate.
  - apply (unknown_style_strings 100 105 0.05 0.2 2 2 "Call" "american" 0).
    discriminate.
Defined.

End LatticeBounds.

Section LatticeAcceptance.
Import Binomial.

(** X5: Validation reports the first parameter that is out of range, in the
    order spot, strike, maturity, steps, whatever the other arguments are. *)
Theorem binomial_validation_order (spot strike rate volatility maturity : R)
    (steps : Z) (option_type exercise : string) (dividend_yield : R) :
  let result := price_binomial_option spot strike rate volatility maturity steps
                  option_type exercise dividend_yield in
  (spot <= 0 -> result = Raise (ValueError msg_spot))
  /\ (0 < spot -> strike <= 0 -> result = Raise (ValueError msg_strike))
  /\ (0 < spot -> 0 < strike -> maturity <= 0 ->
      result = Raise (ValueError msg_maturity))
  /\ (0 < spot -> 0 < strike -> 0 < maturity -> (steps < 1)%Z ->
      result = Raise (ValueError msg_steps))
  /\ (forall e, _validate_inputs spot strike maturity steps = Raise e ->
      result = Raise e /\ kind_of e = InvalidParameter).
Proof.
  unfold price_binomial_option, final_payoffs, _validate_inputs.
  repeat split; intros; repeat case_decide; try reflexivity;
    try lra; try lia; try congruence.
  all: match goal with H : Raise _ = Raise _ |- _ => inversion H; reflexivity end.
Qed.

Lemma binomial_validation_order_witness :
  price_binomial_option (-1) 0 0.05 0.2 0 0 "call" "european" 0
  = Raise (ValueError msg_spot)
  /\ price_binomial_option 100 105 0.05 0.2 1 0 "call" "european" 0
     = Raise (ValueError msg_steps).
Proof.
  split.
  - destruct (binomial_validation_order (-1) 0 0.05 0.2 0 0 "call" "european" 0)
      as (Hspot & _).
    apply Hspot. lra.
  - destruct (binomial_validation_order 100 105 0.05 0.2 1 0 "call" "european" 0)
      as (_ & _ & _ & Hsteps & _).
    apply Hsteps; first [lra | lia].
Defined.

End LatticeAcceptance.

Section PutCallParity.
Import Binomial.

Lemma intrinsic_difference (spot strike : R) (L : lattice) (step i : nat) :
  intrinsic spot strike "call" L step i - intrinsic spot strike "put" L step i
  = spot * up L ^ i * down L ^ (step - i) - strike.
Proof.
  unfold intrinsic.
  change (bool_decide ("call" = "call")) with true.
  change (bool_decide ("put" = "call")) with false.
  cbv iota. unfold py_max. repeat case_decide; lra.
Qed.

(** The expected terminal price and the total weight of the distribution. *)
Lemma weighted_terminal_price (spot strike p u d : R) (n : nat) :
  weighted_sum p (1 - p) (fun j => spot * u ^ j * d ^ (n - j) - strike) n
  = spot * (p * u + (1 - p) * d) ^ n - strike.
Proof.
  unfold weighted_sum.
  transitivity
    (sum_f_R0 (fun j => C n j * (p * u) ^ j * ((1 - p) * d) ^ (n - j) * spot) n
     - sum_f_R0 (fun j => C n j * p ^ j * (1 - p) ^ (n - j) * strike) n).
  - rewrite <- minus_sum. apply sum_eq. intros j Hj.
    rewrite binom_C by assumption. rewrite !Rpow_mult_distr. ring.
  - rewrite <- !scal_sum, <- !binomial.
    replace (p + (1 - p)) with 1 by ring. rewrite pow1. ring.
Qed.

Lemma european_root_value (spot strike rate volatility maturity : R) (steps : Z)
    (option_type : string) (dividend_yield v : R) :
  price_binomial_option spot strike rate volatility maturity steps option_type
    "european" dividend_yield = OK v ->
  let L := lattice_of rate volatility maturity steps dividend_yield in
  v = exp (- rate * maturity)
      * weighted_sum (prob_up L) (1 - prob_up L)
          (fun j => intrinsic spot strike option_type L (Z.to_nat steps) j)
          (Z.to_nat steps).
Proof.
  intros Hv L.
  destruct (price_accepted _ _ _ _ _ _ _ _ _ _ Hv)
    as (Hspot & Hstrike & Hm & Hs & _ & _ & HL).
  rewrite (price_is_root_value _ _ _ _ _ _ _ _ _ _ Hspot Hstrike Hm Hs HL) in Hv.
  injection Hv as <-.
  change (bool_decide ("european" = "american")) with false.
  rewrite european_lattice_value. fold L. f_equal.
  unfold L at 1. simpl discount. by apply discount_pow.
Qed.

(** X6: Put-call parity on the lattice: the European call and put on the same
    parameters differ by the discounted forward minus the discounted
    strike. *)
Theorem european_put_call_parity (spot strike rate volatility maturity : R)
    (steps : Z) (dividend_yield call put : R) :
  price_binomial_option spot strike rate volatility maturity steps "call"
    "european" dividend_yield = OK call ->
  price_binomial_option spot strike rate volatility maturity steps "put"
    "european" dividend_yield = OK put ->
  call - put
  = spot * exp (- dividend_yield * maturity) - strike * exp (- rate * maturity).
Proof.
  intros Hcall Hput.
  destruct (price_accepted _ _ _ _ _ _ _ _ _ _ Hcall)
    as (Hspot & Hstrike & Hm & Hs & Hud & _ & _).
  rewrite (european_root_value _ _ _ _ _ _ _ _ _ Hcall).
  rewrite (european_root_value _ _ _ _ _ _ _ _ _ Hput).
  set (L := lattice_of rate volatility maturity steps dividend_yield).
  set (n := Z.to_nat steps).
  rewrite <- Rmult_minus_distr_l.
  assert (Hdiff :
    weighted_sum (prob_up L) (1 - prob_up L)
      (fun j => intrinsic spot strike "call" L n j) n
    - weighted_sum (prob_up L) (1 - prob_up L)
        (fun j => intrinsic spot strike "put" L n j) n
    = weighted_sum (prob_up L) (1 - prob_up L)
        (fun j => spot * up L ^ j * down L ^ (n - j) - strike) n).
  { unfold weighted_sum. rewrite <- minus_sum. apply sum_eq. intros j Hj.
    rewrite <- intrinsic_difference. ring. }
  rewrite Hdiff, weighted_terminal_price.
  assert (Hgrowth : prob_up L * up L + (1 - prob_up L) * down L
                    = growth_factor rate dividend_yield maturity steps).
  { unfold L. simpl. unfold risk_neutral_probability. field. lra. }
  rewrite Hgrowth. unfold growth_factor. rewrite exp_pow_INR.
  replace (INR n * ((rate - dividend_yield) * time_step maturity steps))
    with ((rate - dividend_yield) * maturity).
  2:{ unfold n. rewrite INR_IZR_INZ, Z2Nat.id by lia. unfold time_step. field.
      intros Hz. apply eq_IZR in Hz. lia. }
  rewrite Rmult_minus_distr_l.
  replace (exp (- rate * maturity)
           * (spot * exp ((rate - dividend_yield) * maturity)))
    with (spot * (exp (- rate * maturity)
                  * exp ((rate - dividend_yield) * maturity))) by ring.
  rewrite <- exp_plus.
  replace (- rate * maturity + (rate - dividend_yield) * maturity)
    with (- dividend_yield * maturity) by ring.
  ring.
Qed.

Lemma european_put_call_parity_witness :
  exists call put,
    price_binomial_option 100 105 0.05 0.2 2 2 "call" "european" 0 = OK call
    /\ price_binomial_option 100 105 0.05 0.2 2 2 "put" "european" 0 = OK put
    /\ call - put = 100 * exp (- 0 * 2) - 105 * exp (- (0.05) * 2).
Proof.
  destruct (sample_accepted "call" "european") as [call Hcall].
  destruct (sample_accepted "put" "european") as [put Hput].
  exists call, put. split; [exact Hcall|]. split; [exact Hput|].
  exact (european_put_call_parity 100 105 0.05 0.2 2 2 0 call put Hcall Hput).
Defined.

End PutCallParity.

Section LatticeMonotone.
Import Binomial.

Lemma py_max_mono (a a' b b' : R) :
  a <= a' -> b <= b' -> py_max a b <= py_max a' b'.
Proof. intros Ha Hb. unfold py_max. repeat case_decide; lra. Qed.

(** Node values are monotone in the exercise values. *)
Lemma lattice_value_mono (spot1 strike1 spot2 strike2 : R) (option_type : string)
    (american : bool) (L : lattice) (n k i : nat) :
  0 <= prob_up L <= 1 -> 0 <= discount L ->
  (forall step j, intrinsic spot1 strike1 option_type L step j
                  <= intrinsic spot2 strike2 option_type L step j) ->
  lattice_value spot1 strike1 option_type american L n k i
  <= lattice_value spot2 strike2 option_type american L n k i.
Proof.
  intros Hp Hd Hle. revert i. induction k as [|k IH]; intros i.
  - apply Hle.
  - simpl. unfold node_value.
    pose proof (IH i) as Hlo. pose proof (IH (i + 1)%nat) as Hhi.
    assert (Hc : discount L
                 * (prob_up L
                    * lattice_value spot1 strike1 option_type american L n k
                        (i + 1)
                    + (1 - prob_up L)
                      * lattice_value spot1 strike1 option_type american L n k i)
                 <= discount L
                    * (prob_up L
                       * lattice_value spot2 strike2 option_type american L n k
                           (i + 1)
                       + (1 - prob_up L)
                         * lattice_value spot2 strike2 option_type american L n
                             k i)).
    { apply Rmult_le_compat_l; [assumption|].
      apply Rplus_le_compat; apply Rmult_le_compat_l; lra. }
    destruct american; [|exact Hc].
    apply py_max_mono; [exact Hc | apply Hle].
Qed.

(** X7: A higher strike never raises the price of a call and never lowers the
    price of a put, for either exercise style. *)
Theorem price_monotone_in_strike (spot strike1 strike2 rate volatility maturity : R)
    (steps : Z) (option_type exercise : string) (dividend_yield v1 v2 : R) :
  strike1 <= strike2 ->
  price_binomial_option spot strike1 rate volatility maturity steps option_type
    exercise dividend_yield = OK v1 ->
  price_binomial_option spot strike2 rate volatility maturity steps option_type
    exercise dividend_yield = OK v2 ->
  if bool_decide (option_type = "call") then v2 <= v1 else v1 <= v2.
Proof.
  intros Hk H1 H2.
  destruct (price_accepted _ _ _ _ _ _ _ _ _ _ H1)
    as (Hspot & Hstrike1 & Hm & Hs & _ & Hp & HL).
  destruct (price_accepted _ _ _ _ _ _ _ _ _ _ H2) as (_ & Hstrike2 & _).
  rewrite (price_is_root_value _ _ _ _ _ _ _ _ _ _ Hspot Hstrike1 Hm Hs HL) in H1.
  rewrite (price_is_root_value _ _ _ _ _ _ _ _ _ _ Hspot Hstrike2 Hm Hs HL) in H2.
  injection H1 as <-. injection H2 as <-.
  assert (Hd : 0 <= discount (lattice_of rate volatility maturity steps
                                dividend_yield)).
  { simpl. left. apply exp_pos. }
  case_bool_decide as Hty.
  - apply lattice_value_mono; [exact Hp | exact Hd |].
    intros step j. unfold intrinsic.
    rewrite (bool_decide_eq_true_2 _ Hty). apply py_max_mono; lra.
  - apply lattice_value_mono; [exact Hp | exact Hd |].
    intros step j. unfold intrinsic.
    rewrite (bool_decide_eq_false_2 _ Hty). apply py_max_mono; lra.
Qed.

Lemma sample_accepted_strike (strike : R) (option_type exercise : string) :
  0 < strike ->
  exists v, price_binomial_option 100 strike 0.05 0.2 2 2 option_type exercise 0
            = OK v.
Proof.
  intros Hk.
  assert (Hdt : time_step 2 2 = 1) by (unfold time_step; field).
  destruct (probability_in_range 0.05 0.2 2 2 0) as [Hud Hp];
    [lra | lia | lra | rewrite Hdt, sqrt_1; lra |].
  destruct (binomial_outcomes 100 strike 0.05 0.2 2 2 option_type exercise 0)
    as [[Hv _]|[(_ & Hbad & _)|(_ & _ & Hv)]];
    first [lra | lia | contradiction | exact Hv].
Qed.

Lemma price_monotone_in_strike_witness :
  exists v1 v2,
    price_binomial_option 100 95 0.05 0.2 2 2 "call" "american" 0 = OK v1
    /\ price_binomial_option 100 105 0.05 0.2 2 2 "call" "american" 0 = OK v2
    /\ v2 <= v1.
Proof.
  destruct (sample_accepted_strike 95 "call" "american") as [v1 H1]; [lra|].
  destruct (sample_accepted_strike 105 "call" "american") as [v2 H2]; [lra|].
  exists v1, v2. split; [exact H1|]. split; [exact H2|].
  exact (price_monotone_in_strike 100 95 105 0.05 0.2 2 2 "call" "american" 0
           v1 v2 ltac:(lra) H1 H2).
Defined.

End LatticeMonotone.

(** * Further properties of the Monte Carlo engine *)

Section MonteCarloBehaviour.
Import MonteCarlo.
Context {G : Type} `{RandomGen G}.

(** X9: Validation reports the first parameter that is out of range, in the
    order spot, volatility, maturity, steps, paths, before the generator is
    created and before the payoff is called. *)
Theorem monte_carlo_validation_order (spot rate volatility maturity : R)
    (steps paths : Z) (payoff : list R -> Result R) (dividend_yield : R)
    (seed : option Z) (os_entropy : G) :
  let result := price_monte_carlo_option spot rate volatility maturity steps
                  paths payoff dividend_yield seed os_entropy in
  (spot <= 0 -> result = Raise (ValueError msg_spot))
  /\ (0 < spot -> volatility < 0 -> result = Raise (ValueError msg_volatility))
  /\ (0 < spot -> 0 <= volatility -> maturity <= 0 ->
      result = Raise (ValueError msg_maturity))
  /\ (0 < spot -> 0 <= volatility -> 0 < maturity -> (steps < 1)%Z ->
      result = Raise (ValueError msg_steps))
  /\ (0 < spot -> 0 <= volatility -> 0 < maturity -> (1 <= steps)%Z ->
      (paths < 1)%Z -> result = Raise (ValueError msg_paths)).
Proof.
  unfold price_monte_carlo_option, _validate_inputs.
  repeat split; intros; repeat case_decide; try reflexivity; first [lra | lia].
Qed.

Lemma gbm_from_positive (drift diffusion current : R) (zs : list R) :
  0 < current -> Forall (fun x => 0 < x) (gbm_from drift diffusion current zs).
Proof.
  revert current. induction zs as [|z zs IH]; intros current Hc; simpl.
  - constructor.
  - assert (Hnext : 0 < current * exp (drift + diffusion * z)).
    { apply Rmult_lt_0_compat; [assumption | apply exp_pos]. }
    constructor; [exact Hnext | by apply IH].
Qed.

(** X10: A simulated path has [steps + 1] entries, starts at the spot price,
    stays strictly positive, and leaves the generator advanced by exactly
    [steps] draws. *)
Theorem simulated_path_shape (spot rate volatility dividend_yield maturity : R)
    (steps : Z) (rng : G) :
  0 < spot -> 0 < maturity -> (1 <= steps)%Z ->
  exists path,
    _simulate_path spot rate volatility dividend_yield maturity steps rng
    = OK (path, advance (Z.to_nat steps) rng)
    /\ length path = (Z.to_nat steps + 1)%nat
    /\ head path = Some spot
    /\ Forall (fun x => 0 < x) path.
Proof.
  intros Hspot Hm Hs. eexists. split; [by apply simulate_path_spec|].
  unfold gbm_path. split; [|split].
  - simpl. rewrite gbm_from_length, draws_length. lia.
  - reflexivity.
  - constructor; [exact Hspot | by apply gbm_from_positive].
Qed.

Lemma py_sum_bounds (lo hi : R) (vs : list R) :
  Forall (fun v => lo <= v <= hi) vs ->
  lo * INR (length vs) <= py_sum vs <= hi * INR (length vs).
Proof.
  intros Hvs. unfold py_sum.
  assert (Hacc : forall acc,
             acc + lo * INR (length vs) <= fold_left Rplus vs acc
             <= acc + hi * INR (length vs)).
  { induction Hvs as [|v vs Hv _ IH]; intros acc.
    - simpl. lra.
    - change (fold_left Rplus (v :: vs) acc) with (fold_left Rplus vs (acc + v)).
      change (length (v :: vs)) with (S (length vs)). rewrite S_INR.
      specialize (IH (acc + v)). lra. }
  specialize (Hacc 0). lra.
Qed.

Lemma mapM_all_ok {A B : Type} (f : A -> Result B) (Q : A -> Prop)
    (P : B -> Prop) (l : list A) :
  Forall Q l ->
  (forall x, Q x -> exists v, f x = OK v /\ P v) ->
  exists vs, mapM f l = OK vs /\ Forall P vs /\ length vs = length l.
Proof.
  intros Hl Hf. induction Hl as [|x l Hx _ (vs & Hvs & HP & Hlen)]; simpl.
  - exists []. repeat split. constructor.
  - destruct (Hf x Hx) as (v & Hv & Pv). rewrite Hv. simpl. rewrite Hvs. simpl.
    exists (v :: vs). repeat split; [by constructor | simpl; by rewrite Hlen].
Qed.

Lemma mapM_raise_at {A B : Type} (f : A -> Result B) (l : list A) (j : nat)
    (x : A) (e : exn) :
  l !! j = Some x -> f x = Raise e ->
  (forall i y, (i < j)%nat -> l !! i = Some y -> exists v, f y = OK v) ->
  mapM f l = Raise e.
Proof.
  revert j. induction l as [|y l IH]; intros j Hj Hx Hbefore; [discriminate|].
  destruct j as [|j]; simpl in *.
  - injection Hj as ->. by rewrite Hx.
  - destruct (Hbefore 0%nat y ltac:(lia) eq_refl) as [v Hv]. rewrite Hv. simpl.
    rewrite (IH j Hj Hx); [reflexivity|].
    intros i z Hi Hz. apply (Hbefore (S i) z); [lia | exact Hz].
Qed.

(** X11: If the payoff returns a value between [lo] and [hi] on every path the
    engine can produce (a list of [steps + 1] positive prices that starts at
    the spot price), the price is returned and lies between the discounted
    bounds.  (Floats idealised as reals: the bounds are those of the real
    sum and mean; a float run can leave them by rounding.) *)
Theorem monte_carlo_price_bounds (spot rate volatility maturity : R)
    (steps paths : Z) (payoff : list R -> Result R) (dividend_yield : R)
    (seed : option Z) (os_entropy : G) (lo hi : R) :
  0 < spot -> 0 <= volatility -> 0 < maturity ->
  (1 <= steps)%Z -> (1 <= paths)%Z ->
  (forall path,
     length path = (Z.to_nat steps + 1)%nat -> head path = Some spot ->
     Forall (fun x => 0 < x) path ->
     exists v, payoff path = OK v /\ lo <= v <= hi) ->
  exists price,
    price_monte_carlo_option spot rate volatility maturity steps paths payoff
      dividend_yield seed os_entropy = OK price
    /\ exp (- rate * maturity) * lo <= price <= exp (- rate * maturity) * hi.
Proof.
  intros Hspot Hv Hm Hs Hp Hpay.
  rewrite price_monte_carlo_spec by assumption.
  destruct (mapM_all_ok payoff
              (fun path => length path = (Z.to_nat steps + 1)%nat
                           /\ head path = Some spot
                           /\ Forall (fun x => 0 < x) path)
              (fun v => lo <= v <= hi)
              (paths_from spot
                 ((rate - dividend_yield - 0.5 * volatility * volatility)
                  * (maturity / IZR steps))
                 (volatility * sqrt (maturity / IZR steps))
                 (Z.to_nat steps) (Z.to_nat paths) (Random seed os_entropy)))
    as (vs & Hvs & Hbounds & Hlen).
  { by apply paths_from_shape. }
  { intros path (Hlength & Hhead & Hpositive). by apply Hpay. }
  rewrite Hvs. simpl. eexists. split; [reflexivity|].
  rewrite paths_from_length in Hlen.
  apply py_sum_bounds in Hbounds. rewrite Hlen in Hbounds.
  assert (Hcount : 0 < INR (Z.to_nat paths)) by (apply lt_0_INR; lia).
  pose proof (exp_pos (- rate * maturity)) as Hd.
  assert (Hmean : lo <= py_sum vs / INR (Z.to_nat paths) <= hi).
  { split.
    - apply (Rmult_le_reg_r (INR (Z.to_nat paths))); [assumption|].
      unfold Rdiv. rewrite Rmult_assoc, Rinv_l by lra. lra.
    - apply (Rmult_le_reg_r (INR (Z.to_nat paths))); [assumption|].
      unfold Rdiv. rewrite Rmult_assoc, Rinv_l by lra. lra. }
  split; apply Rmult_le_compat_l; lra.
Qed.

(** X12: The exception of the first trial whose payoff raises is the exception
    of the pricer; later trials are not run. *)
Theorem payoff_exception_propagates (spot rate volatility maturity : R)
    (steps paths : Z) (payoff : list R -> Result R) (dividend_yield : R)
    (seed : option Z) (os_entropy : G) (j : nat) (path : list R) (e : exn) :
  0 < spot -> 0 <= volatility -> 0 < maturity ->
  (1 <= steps)%Z -> (1 <= paths)%Z ->
  let trial_paths :=
    paths_from spot
      ((rate - dividend_yield - 0.5 * volatility * volatility)
       * (maturity / IZR steps))
      (volatility * sqrt (maturity / IZR steps))
      (Z.to_nat steps) (Z.to_nat paths) (Random seed os_entropy) in
  trial_paths !! j = Some path ->
  payoff path = Raise e ->
  (forall i p, (i < j)%nat -> trial_paths !! i = Some p ->
               exists v, payoff p = OK v) ->
  price_monte_carlo_option spot rate volatility maturity steps paths payoff
    dividend_yield seed os_entropy = Raise e.
Proof.
  intros Hspot Hv Hm Hs Hp trial_paths Hj He Hbefore.
  rewrite price_monte_carlo_spec by assumption. fold trial_paths.
  by rewrite (mapM_raise_at payoff trial_paths j path e).
Qed.

End MonteCarloBehaviour.

Lemma monte_carlo_validation_order_witness :
  MonteCarlo.price_monte_carlo_option 0 0.05 0.2 1 2 3
    (fun path => py_getitem path 2) 0 (Some 42%Z) 0%Z
  = Raise (ValueError msg_spot)
  /\ MonteCarlo.price_monte_carlo_option 100 0.05 0.2 1 2 0
       (fun path => py_getitem path 2) 0 (Some 42%Z) 0%Z
     = Raise (ValueError msg_paths).
Proof.
  split.
  - destruct (monte_carlo_validation_order (G := Z) 0 0.05 0.2 1 2 3
                (fun path => py_getitem path 2) 0 (Some 42%Z) 0%Z)
      as (Hspot & _).
    apply Hspot. lra.
  - destruct (monte_carlo_validation_order (G := Z) 100 0.05 0.2 1 2 0
                (fun path => py_getitem path 2) 0 (Some 42%Z) 0%Z)
      as (_ & _ & _ & _ & Hpaths).
    apply Hpaths; first [lra | lia].
Defined.

Lemma simulated_path_shape_witness :
  exists path,
    MonteCarlo._simulate_path 100 0.05 0.2 0 1 2 0%Z
    = OK (path, MonteCarlo.advance 2 0%Z)
    /\ length path = 3%nat
    /\ head path = Some 100
    /\ Forall (fun x => 0 < x) path.
Proof.
  apply (simulated_path_shape (G := Z) 100 0.05 0.2 0 1 2 0%Z);
    first [lra | lia].
Defined.

Lemma monte_carlo_price_bounds_witness :
  exists price,
    MonteCarlo.price_monte_carlo_option 100 0.05 0.2 1 2 3
      (fun path => py_getitem path 0) 0 None 0%Z = OK price
    /\ exp (- (0.05) * 1) * 100 <= price <= exp (- (0.05) * 1) * 100.
Proof.
  apply (monte_carlo_price_bounds (G := Z) 100 0.05 0.2 1 2 3
           (fun path => py_getitem path 0) 0 None 0%Z 100 100);
    try lra; try lia.
  intros path _ Hhead _. exists 100. split; [|lra].
  destruct path as [|x path]; [discriminate|].
  injection Hhead as ->. reflexivity.
Defined.

Lemma payoff_exception_propagates_witness :
  MonteCarlo.price_monte_carlo_option 100 0.05 0.2 1 2 3
    (fun path => Raise TypeError) 0 None 0%Z = Raise TypeError.
Proof.
  eapply (payoff_exception_propagates (G := Z) 100 0.05 0.2 1 2 3
            (fun path => Raise TypeError) 0 None 0%Z 0); try lra; try lia.
  - apply paths_from_lookup. simpl. lia.
  - reflexivity.
Defined.

(** * Properties of the web handlers *)

Section DefaultPayoff.

Context `{Interpreter}.
Import Payoff.

Lemma last_cons_some (x : R) (path : list R) : exists y, last (x :: path) = Some y.
Proof.
  revert x. induction path as [|z path IH]; intros x; [by exists x|].
  destruct (IH z) as [y Hy]. exists y. exact Hy.
Qed.

(** The default expression is the payoff of a call struck at the [strike]
    of [extra_context], and leaves the path as it was. *)
Lemma default_expression_payoff (strike : R) (path : list R) :
  payoff (ECall (EName "max") [EBin Sub (EName "s") (EName "strike"); EInt 0])
         {["strike" := strike]} path
  = (WebServer.call_payoff strike path, path).
Proof.
  destruct path as [|first path]; [reflexivity|].
  destruct (last_cons_some first path) as [final Hfinal].
  unfold WebServer.call_payoff. rewrite Hfinal.
  unfold payoff, local_vars.
  rewrite (standard_vars_ok (first :: path) first final eq_refl Hfinal).
  simpl mbind.
  set (locals := (VFloat <$> {["strike" := strike]}) ∪ _).
  assert (Hmax : lookup_name safe_globals locals "max" = OK (VBuiltin "max")).
  { unfold lookup_name. change (locals !! "max") with (@None value).
    by rewrite safe_globals_max. }
  assert (Hs : lookup_name safe_globals locals "s" = OK (VFloat final))
    by reflexivity.
  assert (Hk : lookup_name safe_globals locals "strike" = OK (VFloat strike))
    by reflexivity.
  simpl py_eval. unfold mbind, Eval_bind, mret, Eval_ret, lift.
  rewrite Hmax, Hs, Hk. simpl.
  unfold pick, py_max. simpl. repeat case_decide; try reflexivity; lra.
Qed.

End DefaultPayoff.

Section WebHandlers.
Context (str_to_float : string -> option R) (str_to_int : string -> option Z)
        (py_str : WebServer.json -> string).
Context {G : Type} `{RandomGen G} `{Interpreter}.

Lemma foldM_ext {A B : Type} (f g : A -> B -> Result A) (xs : list B) (a : A) :
  (forall a x, f a x = g a x) -> foldM f a xs = foldM g a xs.
Proof.
  intros Hfg. revert a. induction xs as [|x xs IH]; intros a; simpl;
    [reflexivity|].
  rewrite Hfg. destruct (g a x); simpl; [apply IH | reflexivity].
Qed.

(** The engine uses the payoff only through its values on paths. *)
Lemma price_monte_carlo_option_ext (spot rate volatility maturity : R)
    (steps paths : Z) (payoff payoff' : list R -> Result R) (dividend_yield : R)
    (seed : option Z) (os_entropy : G) :
  (forall path, payoff path = payoff' path) ->
  MonteCarlo.price_monte_carlo_option spot rate volatility maturity steps paths
    payoff dividend_yield seed os_entropy
  = MonteCarlo.price_monte_carlo_option spot rate volatility maturity steps paths
      payoff' dividend_yield seed os_entropy.
Proof.
  intros Hpay. unfold MonteCarlo.price_monte_carlo_option.
  destruct (MonteCarlo._validate_inputs _ _ _ _ _); [|reflexivity]. simpl.
  rewrite (foldM_ext _ (MonteCarlo.trial spot rate volatility dividend_yield
                          maturity steps payoff')); [reflexivity|].
  intros [payoffs rng] i. unfold MonteCarlo.trial.
  destruct (MonteCarlo._simulate_path _ _ _ _ _ _ _) as [[path rng']|e];
    [|reflexivity].
  simpl. by rewrite Hpay.
Qed.

(** X15: With the default payoff expression, [price_option] is the Monte Carlo
    price of a call struck at the request's strike: the expression text, the
    [strike] binding and the engine compose to
    [max(path[-1] - strike, 0)]. *)
Theorem price_option_default_is_call (request_data : WebServer.PricingRequest)
    (os_entropy : G) :
  WebServer.payoff_expression request_data = "max(s - strike, 0)" ->
  WebServer.price_option request_data os_entropy
  = MonteCarlo.price_monte_carlo_option
      (WebServer.spot request_data) (WebServer.rate request_data)
      (WebServer.volatility request_data) (WebServer.maturity request_data)
      (WebServer.steps request_data) (WebServer.paths request_data)
      (WebServer.call_payoff (WebServer.strike request_data))
      (WebServer.dividend_yield request_data) (WebServer.seed request_data)
      os_entropy.
Proof.
  intros Hexpr. unfold WebServer.price_option. rewrite Hexpr.
  change (Payoff.build_expression_payoff "max(s - strike, 0)"
            (Some {["strike" := WebServer.strike request_data]}))
    with (OK (Payoff.payoff
                (Payoff.ECall (Payoff.EName "max")
                   [Payoff.EBin Payoff.Sub (Payoff.EName "s")
                      (Payoff.EName "strike"); Payoff.EInt 0])
                {["strike" := WebServer.strike request_data]})).
  simpl. apply price_monte_carlo_option_ext. intros path.
  unfold Payoff.as_engine_payoff. by rewrite default_expression_payoff.
Qed.

Lemma reraise_cases {A : Type} (message : string) (r : Result A) :
  (exists a, r = OK a /\ WebServer.reraise message r = OK a)
  \/ (exists e, r = Raise e /\ e <> TypeError /\ (forall m, e <> ValueError m)
                /\ WebServer.reraise message r = Raise e)
  \/ WebServer.reraise message r = Raise (ValueError message).
Proof.
  destruct r as [a|e]; [left; eauto|].
  destruct e; simpl; try (right; right; reflexivity);
    right; left; eexists; repeat split; try discriminate; congruence.
Qed.

Lemma parse_float_cases (payload : gmap string WebServer.json) (key : string)
    (default : R) :
  (exists x, WebServer._parse_float str_to_float payload key default = OK x)
  \/ WebServer._parse_float str_to_float payload key default
     = Raise (ValueError (key +:+ " must be a number"))
  \/ (WebServer._parse_float str_to_float payload key default
      = Raise OverflowError
      /\ exists z, payload !! key = Some (WebServer.JInt z)
                   /\ (WebServer.float_overflow <= Z.abs z)%Z).
Proof.
  unfold WebServer._parse_float.
  destruct (payload !! key) as [[| |z| |s| |]|]; simpl; eauto.
  - case_decide; simpl; [eauto|].
    right; right. split; [reflexivity|]. exists z. split; [reflexivity|lia].
  - destruct (str_to_float s); simpl; eauto.
Qed.

Lemma parse_float_overflow (payload : gmap string WebServer.json)
    (key : string) (default : R) (z : Z) :
  payload !! key = Some (WebServer.JInt z) ->
  (WebServer.float_overflow <= Z.abs z)%Z ->
  WebServer._parse_float str_to_float payload key default = Raise OverflowError.
Proof.
  intros Hkey Hz. unfold WebServer._parse_float. rewrite Hkey. simpl.
  case_decide; [lia|reflexivity].
Qed.

Lemma parse_int_cases (payload : gmap string WebServer.json) (key : string)
    (default minimum : Z) :
  (exists z, WebServer._parse_int str_to_int payload key default minimum = OK z
             /\ (minimum <= z)%Z)
  \/ exists msg, WebServer._parse_int str_to_int payload key default minimum
                 = Raise (ValueError msg).
Proof.
  unfold WebServer._parse_int.
  assert (Hcheck : forall parsed : Z,
             (exists z, (if decide (parsed < minimum)%Z
                         then Raise (ValueError (key +:+ " must be at least "
                                                 +:+ pretty minimum))
                         else OK parsed) = OK z /\ (minimum <= z)%Z)
             \/ exists msg, (if decide (parsed < minimum)%Z
                             then Raise (ValueError (key +:+ " must be at least "
                                                     +:+ pretty minimum))
                             else OK parsed) = Raise (ValueError msg)).
  { intros parsed. case_decide; [right; eauto | left; exists parsed; split; [done|lia]]. }
  destruct (payload !! key) as [[| | | |s| |]|]; simpl; eauto.
  destruct (str_to_int s); simpl; eauto.
Qed.

Lemma parse_optional_int_cases (payload : gmap string WebServer.json)
    (key : string) :
  (exists o, WebServer._parse_optional_int str_to_int payload key = OK o)
  \/ exists msg, WebServer._parse_optional_int str_to_int payload key
                 = Raise (ValueError msg).
Proof.
  unfold WebServer._parse_optional_int.
  destruct (payload !! key) as [[| | | |s| |]|]; simpl; eauto.
  case_bool_decide; simpl; eauto.
  destruct (str_to_int s); simpl; eauto.
Qed.


(** X17: A payload without any of the ten known keys is parsed to the defaults;
    keys the parser does not know are ignored. *)
Theorem parse_pricing_request_defaults (payload : gmap string WebServer.json) :
  (forall key,
     key ∈ ["spot"; "strike"; "rate"; "volatility"; "maturity"; "steps";
            "paths"; "dividend_yield"; "payoff_expression"; "seed"] ->
     payload !! key = None) ->
  WebServer.parse_pricing_request str_to_float str_to_int py_str payload
  = OK {| WebServer.spot := 100; WebServer.strike := 100;
          WebServer.rate := 0.05; WebServer.volatility := 0.2;
          WebServer.maturity := 1; WebServer.steps := 252;
          WebServer.paths := 50000; WebServer.dividend_yield := 0;
          WebServer.payoff_expression := "max(s - strike, 0)";
          WebServer.seed := None |}.
Proof.
  intros Hnone.
  unfold WebServer.parse_pricing_request, WebServer._parse_float,
    WebServer._parse_int, WebServer._parse_optional_int.
  rewrite !Hnone by set_solver. reflexivity.
Qed.

Lemma truncate_bounds (r : R) :
  (1 <= r -> (1 <= WebServer.truncate r)%Z
             /\ IZR (WebServer.truncate r) <= r < IZR (WebServer.truncate r) + 1)
  /\ (r < 1 -> (WebServer.truncate r < 1)%Z).
Proof.
  unfold WebServer.truncate. split.
  - intros Hr. destruct (decide (0 <= r)); [|lra].
    destruct (base_Int_part r) as [Hlo Hhi].
    split; [|lra].
    assert (Hpos : 0 < IZR (Int_part r)) by lra.
    apply lt_IZR in Hpos. lia.
  - intros Hr. case_decide as Hsign.
    + destruct (base_Int_part r) as [Hlo _].
      apply lt_IZR. lra.
    + destruct (base_Int_part (- r)) as [_ Hhi].
      assert (Hneg : -1 < IZR (Int_part (- r))) by lra.
      apply lt_IZR in Hneg. lia.
Qed.


Lemma get_payload_object (payload : gmap string WebServer.json) :
  WebServer.get_payload (Some (WebServer.JObject payload))
  = WebServer.JObject payload.
Proof.
  unfold WebServer.get_payload. simpl. case_bool_decide as Hsize; [|reflexivity].
  apply map_size_empty_iff in Hsize. by rewrite Hsize.
Qed.

(** X19: The status codes of [api_price]: 200 with a price, 400 for every
    [ValueError] (of the parser, of the engine's validation or of the
    payoff), 500 for every other exception.  In particular an expression that
    does not compile is a 500, not a 400, and so is a body that decodes to a
    non-empty value other than a dict; a missing body is an empty dict. *)
Theorem api_price_statuses (os_entropy : G) :
  (forall body response status,
     WebServer.api_price str_to_float str_to_int py_str body os_entropy
     = OK (response, status) ->
     (status = 200%Z /\ exists price inputs,
                          response = WebServer.Priced price inputs)
     \/ (status = 400%Z
         /\ exists msg,
              response = WebServer.Failed (WebServer.PyError (ValueError msg)))
     \/ (status = 500%Z
         /\ exists f, response = WebServer.Failed f
                      /\ forall msg, f <> WebServer.PyError (ValueError msg)))
  /\ (forall payload msg,
        WebServer.parse_pricing_request str_to_float str_to_int py_str payload
        = Raise (ValueError msg) ->
        WebServer.api_price str_to_float str_to_int py_str
          (Some (WebServer.JObject payload)) os_entropy
        = OK (WebServer.Failed (WebServer.PyError (ValueError msg)), 400%Z))
  /\ (forall payload request_data,
        WebServer.parse_pricing_request str_to_float str_to_int py_str payload
        = OK request_data ->
        Payoff.py_compile (WebServer.payoff_expression request_data)
        = Raise SyntaxError ->
        WebServer.api_price str_to_float str_to_int py_str
          (Some (WebServer.JObject payload)) os_entropy
        = OK (WebServer.Failed (WebServer.PyError SyntaxError), 500%Z))
  /\ (forall value,
        WebServer.falsy value = false ->
        (forall fields, value <> WebServer.JObject fields) ->
        WebServer.api_price str_to_float str_to_int py_str (Some value) os_entropy
        = OK (WebServer.Failed WebServer.AttributeError, 500%Z))
  /\ WebServer.api_price str_to_float str_to_int py_str None os_entropy
     = WebServer.api_price str_to_float str_to_int py_str
         (Some (WebServer.JObject ∅)) os_entropy.
Proof.
  split; [|split; [|split; [|split]]].
  - intros body response status. unfold WebServer.api_price.
    destruct (WebServer.get_payload body) as [| | | | | |payload];
      try (intros Hr; injection Hr as <- <-; right; right;
           (split; [reflexivity|]); eexists;
           (split; [reflexivity|]); discriminate).
    destruct (_ ≫= _) as [[request_data price]|e].
    + intros Hr. injection Hr as <- <-. left. eauto.
    + destruct e as [msg| | | | | | |]; intros Hr; try discriminate;
        injection Hr as <- <-.
      { right. left. split; [reflexivity|]. by exists msg. }
      all: right; right; (split; [reflexivity|]); eexists;
        (split; [reflexivity|]); discriminate.
  - intros payload msg Hparse. unfold WebServer.api_price.
    rewrite get_payload_object, Hparse. reflexivity.
  - intros payload request_data Hparse Hcompile. unfold WebServer.api_price.
    rewrite get_payload_object, Hparse. simpl.
    unfold WebServer.price_option, Payoff.build_expression_payoff.
    rewrite Hcompile. reflexivity.
  - intros value Hfalsy Hobject. unfold WebServer.api_price, WebServer.get_payload.
    rewrite Hfalsy. destruct value; try reflexivity.
    by destruct (Hobject fields).
  - reflexivity.
Qed.

End WebHandlers.

Lemma price_option_default_is_call_witness :
  WebServer.price_option
    {| WebServer.spot := 100; WebServer.strike := 105; WebServer.rate := 0.05;
       WebServer.volatility := 0.2; WebServer.maturity := 1;
       WebServer.steps := 2; WebServer.paths := 3;
       WebServer.dividend_yield := 0;
       WebServer.payoff_expression := "max(s - strike, 0)";
       WebServer.seed := Some 42%Z |} 0%Z
  = MonteCarlo.price_monte_carlo_option 100 0.05 0.2 1 2 3
      (WebServer.call_payoff 105) 0 (Some 42%Z) 0%Z.
Proof.
  apply (price_option_default_is_call (G := Z)
           {| WebServer.spot := 100; WebServer.strike := 105;
              WebServer.rate := 0.05; WebServer.volatility := 0.2;
              WebServer.maturity := 1; WebServer.steps := 2;
              WebServer.paths := 3; WebServer.dividend_yield := 0;
              WebServer.payoff_expression := "max(s - strike, 0)";
              WebServer.seed := Some 42%Z |} 0%Z).
  reflexivity.
Defined.


Lemma parse_pricing_request_defaults_witness :
  WebServer.parse_pricing_request (fun _ => None) (fun _ => None) (fun _ => "")
    {["comment" := WebServer.JStr "hello"]}
  = OK {| WebServer.spot := 100; WebServer.strike := 100;
          WebServer.rate := 0.05; WebServer.volatility := 0.2;
          WebServer.maturity := 1; WebServer.steps := 252;
          WebServer.paths := 50000; WebServer.dividend_yield := 0;
          WebServer.payoff_expression := "max(s - strike, 0)";
          WebServer.seed := None |}.
Proof.
  apply (parse_pricing_request_defaults (fun _ => None) (fun _ => None)
           (fun _ => "") {["comment" := WebServer.JStr "hello"]}).
  intros key Hkey. apply lookup_singleton_ne. intros <-. revert Hkey.
  apply (proj1 (bool_decide_eq_false _)). reflexivity.
Defined.


Lemma api_price_statuses_witness :
  WebServer.api_price (fun _ => None) (fun _ => None) (fun _ => "")
    (Some (WebServer.JObject
             {["payoff_expression" := WebServer.JStr "max(s - strike, 0"]}))
    0%Z
  = OK (WebServer.Failed (WebServer.PyError SyntaxError), 500%Z)
  /\ WebServer.api_price (fun _ => None) (fun _ => None) (fun _ => "")
       (Some (WebServer.JObject {["steps" := WebServer.JInt 0]})) 0%Z
     = OK (WebServer.Failed
             (WebServer.PyError (ValueError "steps must be at least 1")),
           400%Z).
Proof.
  destruct (api_price_statuses (G := Z) (fun _ => None) (fun _ => None)
              (fun _ => "") 0%Z) as (_ & Hparse & Hsyntax & _).
  split.
  - eapply Hsyntax; reflexivity.
  - apply Hparse. reflexivity.
Defined.

(** * Expressions without attribute access leave the path alone *)

Section PathPurity.

Context `{Interpreter}.
Import Payoff.

Lemma expr_nested_ind (P : expr -> Prop) :
  (forall z, P (EInt z)) ->
  (forall x, P (EName x)) ->
  (forall a, P a -> P (ENeg a)) ->
  (forall op a b, P a -> P b -> P (EBin op a b)) ->
  (forall a b, P a -> P b -> P (EAnd a b)) ->
  (forall a b, P a -> P b -> P (EOr a b)) ->
  (forall f args, P f -> Forall P args -> P (ECall f args)) ->
  (forall a name, P a -> P (EAttr a name)) ->
  (forall a i, P a -> P i -> P (EIndex a i)) ->
  forall e, P e.
Proof.
  intros HInt HName HNeg HBin HAnd HOr HCall HAttr HIndex.
  fix IH 1. intros [z|x|a|op a b|a b|a b|f args|a name|a i].
  - apply HInt.
  - apply HName.
  - apply HNeg, IH.
  - apply HBin; apply IH.
  - apply HAnd; apply IH.
  - apply HOr; apply IH.
  - apply HCall; [apply IH|].
    induction args as [|a args IHargs]; constructor; [apply IH | exact IHargs].
  - apply HAttr, IH.
  - apply HIndex; apply IH.
Qed.

Lemma safe_globals_unbound (x : string) (v : value) :
  safe_globals !! x = Some v -> unbound_value v.
Proof.
  unfold safe_globals, math_namespace. intros Hx.
  apply lookup_insert_Some in Hx as [[_ <-]|[_ Hx]]; [exact I|].
  apply lookup_insert_Some in Hx as [[_ <-]|[_ Hx]]; [exact I|].
  apply lookup_insert_Some in Hx as [[_ <-]|[_ Hx]]; [exact I|].
  apply elem_of_list_to_map_2 in Hx.
  apply list_elem_of_fmap in Hx as (name & Heq & _).
  injection Heq as _ ->. unfold math_attr.
  repeat case_bool_decide; exact I.
Qed.

Lemma local_vars_unbound (extra_context : gmap string R) (path : list R)
    (locals : gmap string value) (x : string) (v : value) :
  local_vars extra_context path = OK locals ->
  locals !! x = Some v -> unbound_value v.
Proof.
  unfold local_vars, standard_vars.
  destruct (last_price path) as [final|]; [|discriminate].
  destruct (py_getitem path 0) as [first|]; [|discriminate].
  simpl. intros Hl Hx. injection Hl as <-.
  apply lookup_union_Some_raw in Hx as [Hx|[_ Hx]].
  - rewrite lookup_fmap in Hx. destruct (extra_context !! x); [|discriminate].
    injection Hx as <-. exact I.
  - repeat (apply lookup_insert_Some in Hx as [[_ <-]|[_ Hx]]; [exact I|]).
    rewrite lookup_empty in Hx. discriminate.
Qed.

Lemma pick_unbound (greater : bool) (a b : value) :
  unbound_value a -> unbound_value b -> unbound_value (pick greater a b).
Proof.
  intros Ha Hb. unfold pick.
  destruct (num a), (num b); try exact Ha.
  destruct greater; case_decide; assumption.
Qed.

Lemma fold_pick_unbound (greater : bool) (vs : list value) (a : value) :
  Forall unbound_value vs -> unbound_value a ->
  unbound_value (fold_left (pick greater) vs a).
Proof.
  intros Hvs. revert a. induction Hvs as [|c vs Hc _ IH]; intros a Ha.
  - exact Ha.
  - simpl. apply IH. by apply pick_unbound.
Qed.

Lemma extremum_unbound (greater : bool) (args : list value) (v : value) :
  Forall unbound_value args -> extremum greater args = OK v -> unbound_value v.
Proof.
  intros Hargs. unfold extremum.
  destruct args as [|a [|b rest]]; [discriminate | by destruct (num a) |].
  destruct (forallb _ _); [|discriminate].
  intros Hv. injection Hv as <-.
  apply Forall_cons in Hargs as [Ha Hrest].
  apply Forall_cons in Hrest as [Hb Hrest].
  apply fold_pick_unbound; [assumption | by apply pick_unbound].
Qed.

(** A call of anything but a bound method leaves the path as it is. *)
Lemma call_unbound (f : value) (args : list value) (path : list R) :
  unbound_value f -> Forall unbound_value args ->
  snd (call f args path) = path
  /\ forall v, fst (call f args path) = OK v -> unbound_value v.
Proof.
  intros Hf Hargs. destruct f; try contradiction; simpl;
    try (split; [reflexivity | intros v Hv; discriminate]).
  split; [reflexivity|]. intros v.
  case_bool_decide.
  { destruct args as [|[] [|]], path; cbv beta match;
      try (intros Hv; injection Hv as <-; exact I);
      apply extremum_unbound; assumption. }
  case_bool_decide.
  { destruct args as [|[] [|]], path; cbv beta match;
      try (intros Hv; injection Hv as <-; exact I);
      apply extremum_unbound; assumption. }
  destruct (num <$> args) as [|[x|] [|]]; try discriminate.
  repeat case_bool_decide; try discriminate.
  - intros Hv. injection Hv as <-. exact I.
  - unfold py_sqrt. case_decide; [discriminate|].
    intros Hv. injection Hv as <-. exact I.
  - intros Hv. injection Hv as <-. exact I.
Qed.

Lemma negate_unbound (a v : value) : negate a = OK v -> unbound_value v.
Proof. destruct a; simpl; intros Hv; try discriminate; by injection Hv as <-. Qed.

Lemma binary_unbound (op : binop) (a b v : value) :
  binary op a b = OK v -> unbound_value v.
Proof.
  assert (Hdiv : forall x y, VFloat <$> py_div x y = OK v -> unbound_value v).
  { intros x y. unfold py_div. case_decide; simpl; intros Hv;
      [discriminate | by injection Hv as <-]. }
  unfold binary.
  destruct a, b; simpl; destruct op; simpl; intros Hv;
    try discriminate; try (by injection Hv as <-); by eapply Hdiv.
Qed.

Lemma subscript_unbound (a i : value) (path : list R) :
  snd (subscript a i path) = path
  /\ forall v, fst (subscript a i path) = OK v -> unbound_value v.
Proof.
  unfold subscript. destruct a; try (split; [reflexivity | discriminate]).
  destruct i; try (split; [reflexivity | discriminate]).
  cbv zeta. case_decide; [|split; [reflexivity | discriminate]].
  split; [reflexivity|]. simpl.
  destruct (py_getitem path _); simpl; intros v Hv;
    [by injection Hv as <- | discriminate].
Qed.

Lemma eval_bind_pure {A B : Type} (m : Eval A) (k : A -> Eval B)
    (path : list R) (PA : A -> Prop) (PB : B -> Prop) :
  (snd (m path) = path /\ forall a, fst (m path) = OK a -> PA a) ->
  (forall a, PA a ->
     snd (k a path) = path /\ forall b, fst (k a path) = OK b -> PB b) ->
  snd ((m ≫= k) path) = path /\ forall b, fst ((m ≫= k) path) = OK b -> PB b.
Proof.
  intros [Hp Ha] Hk. unfold mbind, Eval_bind.
  destruct (m path) as [[a|e] p']; simpl in Hp, Ha; subst p'.
  - apply Hk. by apply Ha.
  - split; [reflexivity | discriminate].
Qed.

(** Evaluating an expression without attribute access, in a namespace that
    holds no bound method, returns the path list as it received it. *)
Lemma attribute_free_eval (locals : gmap string value) :
  (forall x v, locals !! x = Some v -> unbound_value v) ->
  forall code, attribute_free code = true ->
  forall path,
    snd (py_eval safe_globals locals code path) = path
    /\ forall v, fst (py_eval safe_globals locals code path) = OK v ->
                 unbound_value v.
Proof.
  intros Hlocals code. induction code as
    [z|x|a IHa|op a b IHa IHb|a b IHa IHb|a b IHa IHb|f args IHf IHargs
    |a name IHa|a i IHa IHi] using expr_nested_ind;
    intros Hfree path; simpl in Hfree.
  - split; [reflexivity|]. intros v Hv. by injection Hv as <-.
  - split; [reflexivity|]. simpl. unfold lookup_name.
    destruct (locals !! x) as [w|] eqn:Hl.
    + intros v Hv. injection Hv as <-. by eapply Hlocals.
    + destruct (safe_globals !! x) as [w|] eqn:Hg; [|discriminate].
      intros v Hv. injection Hv as <-. by eapply safe_globals_unbound.
  - simpl. apply (eval_bind_pure _ _ _ unbound_value); [by apply IHa|].
    intros va _. split; [reflexivity|]. intros v. apply negate_unbound.
  - apply andb_prop in Hfree as [Hfa Hfb]. simpl.
    apply (eval_bind_pure _ _ _ unbound_value); [by apply IHa|].
    intros va _. apply (eval_bind_pure _ _ _ unbound_value); [by apply IHb|].
    intros vb _. split; [reflexivity|]. intros v. apply binary_unbound.
  - apply andb_prop in Hfree as [Hfa Hfb]. simpl.
    apply (eval_bind_pure _ _ _ unbound_value); [by apply IHa|].
    intros va Hva. unfold mbind, Eval_bind, truthy.
    match goal with |- context [if ?t then _ else _] => destruct t end.
    + by apply IHb.
    + split; [reflexivity|]. intros v Hv. by injection Hv as <-.
  - apply andb_prop in Hfree as [Hfa Hfb]. simpl.
    apply (eval_bind_pure _ _ _ unbound_value); [by apply IHa|].
    intros va Hva. unfold mbind, Eval_bind, truthy.
    match goal with |- context [if ?t then _ else _] => destruct t end.
    + split; [reflexivity|]. intros v Hv. by injection Hv as <-.
    + by apply IHb.
  - apply andb_prop in Hfree as [Hff Hfargs]. simpl.
    apply (eval_bind_pure _ _ _ unbound_value); [by apply IHf|].
    intros vf Hvf.
    apply (eval_bind_pure _ _ _ (Forall unbound_value));
      [|intros vargs Hvargs; by apply call_unbound].
    clear Hvf. induction IHargs as [|a args IHa _ IH]; simpl in Hfargs.
    + split; [reflexivity|]. intros vs Hvs. injection Hvs as <-. constructor.
    + apply andb_prop in Hfargs as [Hfa Hfrest].
      apply (eval_bind_pure _ _ _ unbound_value); [by apply IHa|].
      intros va Hva.
      apply (eval_bind_pure _ _ _ (Forall unbound_value)); [by apply IH|].
      intros vs Hvs. split; [reflexivity|].
      intros ws Hws. injection Hws as <-. by constructor.
  - discriminate.
  - apply andb_prop in Hfree as [Hfa Hfi]. simpl.
    apply (eval_bind_pure _ _ _ unbound_value); [by apply IHa|].
    intros va _. apply (eval_bind_pure _ _ _ unbound_value); [by apply IHi|].
    intros vi _. apply subscript_unbound.
Qed.

(** X14: A payoff built from an expression without attribute access never
    changes the path it is called on, whether it returns or raises. *)
Theorem attribute_free_payoff_keeps_path (expression : string)
    (extra_context : option (gmap string R)) (code : expr) (f : PayoffFunc)
    (path : list R) :
  py_compile expression = OK code ->
  attribute_free code = true ->
  build_expression_payoff expression extra_context = OK f ->
  snd (f path) = path.
Proof.
  intros Hcode Hfree Hbuild. unfold build_expression_payoff in Hbuild.
  rewrite Hcode in Hbuild. simpl in Hbuild. injection Hbuild as <-.
  unfold payoff.
  destruct (local_vars (default ∅ extra_context) path) as [locals|e] eqn:Hl;
    [|reflexivity].
  destruct (attribute_free_eval locals
              (fun x v => local_vars_unbound _ _ _ x v Hl) code Hfree path)
    as [Hp _].
  destruct (py_eval safe_globals locals code path) as [[v|e] p']; exact Hp.
Qed.

End PathPurity.

Lemma attribute_free_payoff_keeps_path_witness :
  exists f,
    Payoff.build_expression_payoff "max(path) - s" None = OK f
    /\ snd (f [100; 120; 110]) = [100; 120; 110].
Proof.
  eexists. split; [reflexivity|].
  eapply (attribute_free_payoff_keeps_path "max(path) - s" None); reflexivity.
Defined.

(** * Failures of a payoff expression *)

Section ParserRejection.
Import Payoff.

(** A token that cannot start an operand is rejected where an expression
    must start, whatever follows it. *)
Lemma parse_bad_operand (fuel lvl : nat) (t : token) (rest : list token) :
  bad_operand t = SyntaxError -> (4 - lvl < fuel)%nat ->
  parse_level fuel lvl (t :: rest) = Raise SyntaxError.
Proof.
  intros Ht. revert lvl. induction fuel as [|fuel IH]; intros lvl Hfuel; [lia|].
  simpl. case_decide.
  - rewrite IH by lia. reflexivity.
  - destruct t; try discriminate Ht; reflexivity.
Qed.

Lemma parse_tokens_bad_start (t : token) (rest : list token) :
  bad_operand t = SyntaxError ->
  (length (t :: rest) <= max_tokens)%nat ->
  parse_tokens (t :: rest) = Raise SyntaxError.
Proof.
  intros Ht Hlen. unfold parse_tokens. rewrite decide_False by lia.
  rewrite parse_bad_operand; [reflexivity|exact Ht|simpl; lia].
Qed.

End ParserRejection.

Section ParserExtension.
Import Payoff.

Context (t0 : token) (rest0 : list token).
Hypothesis Ht0 : bad_tail t0 = SyntaxError.

Lemma closing_no_binop (lvl : nat) : binop_of lvl t0 = None.
Proof.
  destruct t0; try discriminate Ht0;
    by destruct lvl as [|[|[|[|lvl]]]].
Qed.

Lemma parse_level_nil (fuel lvl : nat) :
  exists err, parse_level fuel lvl [] = Raise err.
Proof.
  revert lvl. induction fuel as [|fuel IH]; intros lvl; simpl; [eauto|].
  case_decide; [|eauto].
  destruct (IH (lvl + 1)%nat) as [err ->]. simpl. eauto.
Qed.

Lemma parse_args_nil (fuel : nat) : exists err, parse_args fuel [] = Raise err.
Proof.
  destruct fuel as [|fuel]; simpl; [eauto|].
  destruct (parse_level_nil fuel 0) as [err ->]. simpl. eauto.
Qed.

(** What the parser has accepted it accepts again, with more fuel, when the
    input continues with a token that cannot continue an expression: the
    token and what follows it are left over. *)
Lemma parse_extend (fuel : nat) :
  (forall fuel' lvl ts e rest,
     (fuel <= fuel')%nat ->
     parse_level fuel lvl ts = OK (e, rest) ->
     parse_level fuel' lvl (ts ++ t0 :: rest0) = OK (e, rest ++ t0 :: rest0))
  /\ (forall fuel' lvl lhs ts e rest,
        (fuel <= fuel')%nat ->
        parse_rest fuel lvl lhs ts = OK (e, rest) ->
        parse_rest fuel' lvl lhs (ts ++ t0 :: rest0)
        = OK (e, rest ++ t0 :: rest0))
  /\ (forall fuel' e0 ts e rest,
        (fuel <= fuel')%nat ->
        parse_trailers fuel e0 ts = OK (e, rest) ->
        parse_trailers fuel' e0 (ts ++ t0 :: rest0)
        = OK (e, rest ++ t0 :: rest0))
  /\ (forall fuel' ts args rest,
        (fuel <= fuel')%nat ->
        parse_args fuel ts = OK (args, rest) ->
        parse_args fuel' (ts ++ t0 :: rest0) = OK (args, rest ++ t0 :: rest0)).
Proof.
  induction fuel as [|fuel (IHl & IHr & IHt & IHa)].
  { repeat split; intros; discriminate. }
  split; [|split; [|split]].
  - intros [|fuel'] lvl ts e rest Hle; [lia|]. simpl.
    case_decide.
    + destruct (parse_level fuel (lvl + 1) ts) as [[lhs rest1]|err] eqn:Hin;
        [|discriminate].
      simpl. intros Hrest.
      rewrite (IHl fuel' _ _ _ _ ltac:(lia) Hin). simpl.
      apply IHr; [lia|exact Hrest].
    + destruct ts as [|t ts]; [discriminate|].
      destruct t; try discriminate; simpl.
      * apply IHt. lia.
      * apply IHt. lia.
      * destruct (parse_level fuel 0 ts) as [[e1 rest1]|err] eqn:Hin;
          [|discriminate].
        simpl. rewrite (IHl fuel' _ _ _ _ ltac:(lia) Hin). simpl.
        destruct rest1 as [|t1 rest1]; [discriminate|].
        destruct t1; try discriminate; simpl.
        apply IHt. lia.
      * destruct (parse_level fuel 4 ts) as [[e1 rest1]|err] eqn:Hin;
          [|discriminate].
        simpl. rewrite (IHl fuel' _ _ _ _ ltac:(lia) Hin). simpl.
        intros Hr. by injection Hr as <- <-.
  - intros [|fuel'] lvl lhs ts e rest Hle; [lia|]. simpl.
    destruct ts as [|t ts].
    + intros Hr. injection Hr as <- <-. simpl. by rewrite closing_no_binop.
    + simpl. destruct (binop_of lvl t) as [mk|].
      * destruct (parse_level fuel (lvl + 1) ts) as [[rhs rest1]|err] eqn:Hin;
          [|discriminate].
        simpl. rewrite (IHl fuel' _ _ _ _ ltac:(lia) Hin). simpl.
        apply IHr. lia.
      * intros Hr. by injection Hr as <- <-.
  - intros [|fuel'] e0 ts e rest Hle; [lia|]. simpl.
    destruct ts as [|t ts].
    + intros Hr. injection Hr as <- <-. simpl.
      destruct t0; try discriminate Ht0; reflexivity.
    + destruct t; simpl; try (intros Hr; by injection Hr as <- <-).
      * destruct ts as [|t1 ts]; simpl.
        -- destruct (parse_args fuel []) as [[args rest1]|err] eqn:Hin;
             [|discriminate].
           destruct (parse_args_nil fuel) as [err Herr]. congruence.
        -- destruct t1; simpl;
             try (destruct (parse_args fuel _) as [[args rest1]|err] eqn:Hin;
                  [|discriminate]; simpl;
                  pose proof (IHa fuel' _ _ _ ltac:(lia) Hin) as Hext;
                  simpl in Hext; rewrite Hext; simpl;
                  apply IHt; lia).
           apply IHt. lia.
      * destruct (parse_level fuel 0 ts) as [[i rest1]|err] eqn:Hin;
          [|discriminate].
        simpl. rewrite (IHl fuel' _ _ _ _ ltac:(lia) Hin). simpl.
        destruct rest1 as [|t1 rest1]; [discriminate|].
        destruct t1; try discriminate; simpl.
        apply IHt. lia.
      * destruct ts as [|t1 ts]; [discriminate|].
        destruct t1; try discriminate; simpl.
        apply IHt. lia.
  - intros [|fuel'] ts args rest Hle; [lia|]. simpl.
    destruct (parse_level fuel 0 ts) as [[a rest1]|err] eqn:Hin; [|discriminate].
    simpl. rewrite (IHl fuel' _ _ _ _ ltac:(lia) Hin). simpl.
    destruct rest1 as [|t1 rest1]; [discriminate|].
    destruct t1; try discriminate; simpl.
    + intros Hr. by injection Hr as <- <-.
    + destruct (parse_args fuel rest1) as [[args1 rest2]|err] eqn:Hargs;
        [|discriminate].
      simpl. rewrite (IHa fuel' _ _ _ ltac:(lia) Hargs). simpl.
      intros Hr. by injection Hr as <- <-.
Qed.

(** A complete expression followed by a token that cannot continue it is
    not an expression. *)
Lemma parse_tokens_trailing (prefix : list token) (code : expr) :
  parse_tokens prefix = OK code ->
  (length (prefix ++ t0 :: rest0) <= max_tokens)%nat ->
  parse_tokens (prefix ++ t0 :: rest0) = Raise SyntaxError.
Proof.
  unfold parse_tokens. intros Hcode Hlen.
  rewrite decide_False by lia.
  case_decide; [discriminate|].
  destruct (parse_level (8 * (length prefix + 1)) 0 prefix)
    as [[e rest]|err] eqn:Hparse; [|discriminate].
  simpl in Hcode. destruct rest as [|t rest]; [|discriminate].
  destruct (parse_extend (8 * (length prefix + 1))) as (Hlevel & _).
  rewrite (Hlevel (8 * (length (prefix ++ t0 :: rest0) + 1))%nat 0%nat
             prefix e []).
  - simpl. by rewrite Ht0.
  - rewrite length_app. lia.
  - exact Hparse.
Qed.

End ParserExtension.

Section PayoffFailures.

Context `{Interpreter}.
Import Payoff.


End PayoffFailures.


